(** * The recording / upload pipeline of [HomeScreen] (src/frontend/App.js)

    The component keeps five pieces of React state ([recording],
    [isRecording], [transcriptions], [audioQueue], [isProcessing]) and a
    handful of [async] functions that suspend at every [await].  The
    embedding below follows that shape:

    - the five [useState] cells are fields of [World], written through
      setters that take a React [SetStateAction] (a plain value or a
      functional updater);
    - every [async] function is cut at its [await]s: the part that runs
      at the call, and one continuation per suspension point, which
      receives the way the awaited promise settled;
    - a suspended activation is a task stored in the world together with
      the variables its closure captured ([currentAudio],
      [remainingQueue], the [recording] handle);
    - the event loop is a labelled step function: a label is a user
      gesture, a timer tick, an effect run, or the settlement of a
      pending call, whose outcome is chosen by the environment.

    A handler runs to completion (one JavaScript job), so one label is
    one atomic step; interleaving happens only between steps.  A
    function called from a handler reads the state of the render the
    handler belongs to, which is the state of the world at the start of
    the step; a continuation keeps the values its activation captured.

    The effect on [audioQueue, isProcessing] is a label of its own: React
    runs it after a render in which one of the two changed, the model
    lets it run at any moment, which only adds runs (its body does
    nothing unless the queue is non-empty and the processor idle). *)

From stdpp Require Import base list strings gmap.

(** ** JavaScript values and promises *)

Module Js.

(** The values that reach the component from the two JSON fields it
    reads: a string, [null], or [undefined] for an absent field. *)
Inductive value :=
| Undefined
| Null
| Str (s : string).

(** ToBoolean on those values: the empty string is falsy. *)
Definition truthy (v : value) : bool :=
  match v with
  | Undefined => false
  | Null => false
  | Str EmptyString => false
  | Str (String _ _) => true
  end.

(** How an awaited promise settles. *)
Inductive settled (A : Type) :=
| Fulfilled (a : A)
| Rejected.
Arguments Fulfilled {A} a.
Arguments Rejected {A}.

Definition bind {A B} (m : settled A) (k : A -> settled B) : settled B :=
  match m with
  | Fulfilled a => k a
  | Rejected => Rejected
  end.

(** [try { m } catch { h }] *)
Definition try_catch {A} (m : settled A) (h : settled A) : settled A :=
  match m with
  | Fulfilled a => Fulfilled a
  | Rejected => h
  end.

(** Property read [o.k]: throws a TypeError when [o] is [null] or
    [undefined], yields [undefined] when the property is absent. *)
Definition get (o : option (gmap string value)) (k : string) : settled value :=
  match o with
  | Some fields => Fulfilled (default Undefined (fields !! k))
  | None => Rejected
  end.

End Js.

Import Js.

(** ** Data model *)

(** A segment is referred to by the URI of its temporary file. *)
Definition Uri := string.

(** Identity of an [Audio.Recording] object. *)
Definition Handle := nat.

(** An element of [transcriptions]: [{ text, analysis }]. *)
Record TranscriptionRecord := mkRecord {
  text : Js.value;
  analysis : Js.value;
}.

(** The argument of a [useState] setter. *)
Inductive SetStateAction (S : Type) :=
| Value (v : S)
| Updater (f : S -> S).
Arguments Value {S} v.
Arguments Updater {S} f.

Definition apply_action {S} (a : SetStateAction S) (prev : S) : S :=
  match a with
  | Value v => v
  | Updater f => f prev
  end.

(** The body of an axios response: [response.data] is an object (its
    fields), or [None] when it is [null]/[undefined]. *)
Record AxiosResponse := mkResponse {
  data : option (gmap string Js.value);
}.

Definition BACKEND_URL : string := "http://192.168.0.156:3000".

(** What the program does to the outside world, in order. *)
Inductive Event :=
| EvPost (url : string) (uri : Uri)
    (* axios.post(url, formData) issued for the segment *)
| EvDelete (uri : Uri)
    (* FileSystem.deleteAsync(uri) called *)
| EvEnqueue (uri : Uri)
    (* stopRecording appended the segment to the queue *)
| EvAppend (uri : Uri) (r : TranscriptionRecord)
    (* a record for the segment was appended to the display list *)
| EvStopAndUnload (h : Handle)
    (* recording.stopAndUnloadAsync() called *)
| EvRequestPermissions.
    (* Audio.requestPermissionsAsync() called *)

(** A suspended activation of [processAudioQueue], with the variables of
    its closure. *)
Inductive ProcTask :=
| AwaitTranscribe (currentAudio : Uri) (remainingQueue : list Uri)
| AwaitAnalyze (currentAudio : Uri) (remainingQueue : list Uri)
    (transcriptionPromise : Js.value)
| AwaitDelete (currentAudio : Uri) (remainingQueue : list Uri).

(** What runs after [await stopRecording()] in the caller. *)
Inductive AfterStop :=
| ThenNothing        (* the stop button handler *)
| ThenStartRecording (* the segmentation timer callback *).

(** A suspended activation of [stopRecording]: it awaits
    [recording.stopAndUnloadAsync()] on the handle of its closure. *)
Record StopTask := mkStop {
  stop_handle : Handle;
  stop_next : AfterStop;
}.

Record World := mkWorld {
  (* component state, one field per useState *)
  recording : option Handle;
  isRecording : bool;
  transcriptions : list TranscriptionRecord;
  audioQueue : list Uri;
  isProcessing : bool;
  (* suspended activations *)
  processing : list ProcTask;
  starting : nat;
  stopping : list StopTask;
  (* environment: recordings created and not unloaded, and the log *)
  device : list Handle;
  trace : list Event;
}.

Definition init : World :=
  {| recording := None; isRecording := false; transcriptions := [];
     audioQueue := []; isProcessing := false;
     processing := []; starting := 0; stopping := [];
     device := []; trace := [] |}.

(** ** Actions *)

Definition Action := World -> World.

Definition then_ (a b : Action) : Action := fun w => b (a w).
Infix ">>>" := then_ (at level 55, right associativity).

Definition skip : Action := fun w => w.

Definition setRecording (a : SetStateAction (option Handle)) : Action := fun w =>
  {| recording := apply_action a (recording w); isRecording := isRecording w;
     transcriptions := transcriptions w; audioQueue := audioQueue w;
     isProcessing := isProcessing w; processing := processing w;
     starting := starting w; stopping := stopping w;
     device := device w; trace := trace w |}.

Definition setIsRecording (a : SetStateAction bool) : Action := fun w =>
  {| recording := recording w; isRecording := apply_action a (isRecording w);
     transcriptions := transcriptions w; audioQueue := audioQueue w;
     isProcessing := isProcessing w; processing := processing w;
     starting := starting w; stopping := stopping w;
     device := device w; trace := trace w |}.

Definition setTranscriptions (a : SetStateAction (list TranscriptionRecord)) : Action := fun w =>
  {| recording := recording w; isRecording := isRecording w;
     transcriptions := apply_action a (transcriptions w); audioQueue := audioQueue w;
     isProcessing := isProcessing w; processing := processing w;
     starting := starting w; stopping := stopping w;
     device := device w; trace := trace w |}.

Definition setAudioQueue (a : SetStateAction (list Uri)) : Action := fun w =>
  {| recording := recording w; isRecording := isRecording w;
     transcriptions := transcriptions w; audioQueue := apply_action a (audioQueue w);
     isProcessing := isProcessing w; processing := processing w;
     starting := starting w; stopping := stopping w;
     device := device w; trace := trace w |}.

Definition setIsProcessing (a : SetStateAction bool) : Action := fun w =>
  {| recording := recording w; isRecording := isRecording w;
     transcriptions := transcriptions w; audioQueue := audioQueue w;
     isProcessing := apply_action a (isProcessing w); processing := processing w;
     starting := starting w; stopping := stopping w;
     device := device w; trace := trace w |}.

Definition with_processing (f : list ProcTask -> list ProcTask) : Action := fun w =>
  {| recording := recording w; isRecording := isRecording w;
     transcriptions := transcriptions w; audioQueue := audioQueue w;
     isProcessing := isProcessing w; processing := f (processing w);
     starting := starting w; stopping := stopping w;
     device := device w; trace := trace w |}.

Definition with_starting (f : nat -> nat) : Action := fun w =>
  {| recording := recording w; isRecording := isRecording w;
     transcriptions := transcriptions w; audioQueue := audioQueue w;
     isProcessing := isProcessing w; processing := processing w;
     starting := f (starting w); stopping := stopping w;
     device := device w; trace := trace w |}.

Definition with_stopping (f : list StopTask -> list StopTask) : Action := fun w =>
  {| recording := recording w; isRecording := isRecording w;
     transcriptions := transcriptions w; audioQueue := audioQueue w;
     isProcessing := isProcessing w; processing := processing w;
     starting := starting w; stopping := f (stopping w);
     device := device w; trace := trace w |}.

Definition with_device (f : list Handle -> list Handle) : Action := fun w =>
  {| recording := recording w; isRecording := isRecording w;
     transcriptions := transcriptions w; audioQueue := audioQueue w;
     isProcessing := isProcessing w; processing := processing w;
     starting := starting w; stopping := stopping w;
     device := f (device w); trace := trace w |}.

Definition emit (e : Event) : Action := fun w =>
  {| recording := recording w; isRecording := isRecording w;
     transcriptions := transcriptions w; audioQueue := audioQueue w;
     isProcessing := isProcessing w; processing := processing w;
     starting := starting w; stopping := stopping w;
     device := device w; trace := trace w ++ [e] |}.

(** ** The two remote calls *)

Definition transcribe_url : string := (BACKEND_URL ++ "/transcribe")%string.
Definition analyze_url : string := (BACKEND_URL ++ "/analyze")%string.

(** [transcribeAudio(uri)]: one [axios.post], awaited inside a
    [try]/[catch] that turns every failure into [null].  The function is
    given the way the request settled and yields the way its own promise
    settles.  [analyzeAudio] is the same on the other endpoint. *)

Definition transcribeAudio (response : settled AxiosResponse) : settled Js.value :=
  try_catch
    (bind response (fun response => get (data response) "transcription"))
    (Fulfilled Null).

Definition analyzeAudio (response : settled AxiosResponse) : settled Js.value :=
  try_catch
    (bind response (fun response => get (data response) "analysis"))
    (Fulfilled Null).

(** ** processAudioQueue *)

(** The [finally] block up to its [await]: the deletion is requested. *)
Definition enter_finally (i : nat) (currentAudio : Uri) (remainingQueue : list Uri) : Action :=
  emit (EvDelete currentAudio)
  >>> with_processing (<[i := AwaitDelete currentAudio remainingQueue]>).

(** The call itself, up to the first [await]: the guard reads the
    [audioQueue] and [isProcessing] of the render it was created in. *)
Definition processAudioQueue : Action := fun w =>
  if (List.length (audioQueue w) =? 0)%nat || isProcessing w then w
  else
    match audioQueue w with
    | [] => w
    | currentAudio :: remainingQueue =>
        (setIsProcessing (Value true)
         >>> emit (EvPost transcribe_url currentAudio)
         >>> with_processing (fun ts => ts ++ [AwaitTranscribe currentAudio remainingQueue])) w
    end.

(** [const transcriptionPromise = await transcribeAudio(currentAudio)]
    has settled; a rejection goes to [catch] and then [finally]. *)
Definition after_transcribe (i : nat) (currentAudio : Uri) (remainingQueue : list Uri)
    (p : settled Js.value) : Action :=
  match p with
  | Fulfilled transcriptionPromise =>
      emit (EvPost analyze_url currentAudio)
      >>> with_processing (<[i := AwaitAnalyze currentAudio remainingQueue transcriptionPromise]>)
  | Rejected => enter_finally i currentAudio remainingQueue
  end.

(** [const analysisPromise = await analyzeAudio(currentAudio)] has
    settled.  [Promise.all] of the two values already at hand resolves to
    those values within the same turn of the event loop (the function
    reads no state while it waits for it); then the guarded append, then
    [finally]. *)
Definition after_analyze (i : nat) (currentAudio : Uri) (remainingQueue : list Uri)
    (transcriptionPromise : Js.value) (p : settled Js.value) : Action :=
  match p with
  | Fulfilled analysisPromise =>
      let transcription := transcriptionPromise in
      let analysisResult := analysisPromise in
      (if truthy transcription then
         let r := {| text := transcription; analysis := analysisResult |} in
         setTranscriptions (Updater (fun prevTranscriptions => prevTranscriptions ++ [r]))
         >>> emit (EvAppend currentAudio r)
       else skip)
      >>> enter_finally i currentAudio remainingQueue
  | Rejected => enter_finally i currentAudio remainingQueue
  end.

(** [await FileSystem.deleteAsync(currentAudio)] has settled, one way or
    the other (a rejection is logged by the inner [catch]); the rest of
    [finally] runs. *)
Definition after_delete (i : nat) (remainingQueue : list Uri) (p : settled ()) : Action :=
  setAudioQueue (Value remainingQueue)
  >>> setIsProcessing (Value false)
  >>> with_processing (delete i).

(** The effect on [audioQueue, isProcessing]. *)
Definition queueEffect : Action := fun w =>
  if (0 <? List.length (audioQueue w))%nat && negb (isProcessing w)
  then processAudioQueue w
  else w.

(** ** The recorder *)

(** The three awaits of [startRecording]; the function reads and writes
    no component state between them, so the activation is kept as one
    pending call whose outcome gathers the three settlements. *)
Record StartOutcome := mkStart {
  perm_status : settled string;       (* (await requestPermissionsAsync()).status *)
  audio_mode : settled ();            (* await setAudioModeAsync(...) *)
  created : settled Handle;           (* (await createAsync(...)).recording *)
}.

(** The body of [startRecording]: the handle it stores, if any. *)
Definition startRecording_body (o : StartOutcome) : settled (option Handle) :=
  try_catch
    (bind (perm_status o) (fun status =>
       if String.eqb status "granted" then
         bind (audio_mode o) (fun _ =>
         bind (created o) (fun recording => Fulfilled (Some recording)))
       else Fulfilled None))
    (Fulfilled None).

(** The call: no guard, the permission request is issued at once. *)
Definition startRecording : Action :=
  emit EvRequestPermissions >>> with_starting S.

Definition after_start (o : StartOutcome) : Action :=
  match startRecording_body o with
  | Fulfilled (Some h) =>
      with_device (fun d => h :: d)
      >>> setRecording (Value (Some h))
      >>> setIsRecording (Value true)
  | _ => skip
  end.

Definition run_next (k : AfterStop) : Action :=
  match k with
  | ThenNothing => skip
  | ThenStartRecording => startRecording
  end.

(** The call of [stopRecording], followed in the caller by [k]: the
    handle is the [recording] of the render the function was created
    in. *)
Definition stopRecording (k : AfterStop) : Action := fun w =>
  match recording w with
  | Some r =>
      (emit (EvStopAndUnload r)
       >>> with_stopping (fun ts => ts ++ [{| stop_handle := r; stop_next := k |}])) w
  | None => run_next k w
  end.

(** [await recording.stopAndUnloadAsync()] has settled; on success the
    outcome carries [recording.getURI()]. *)
Definition after_stop (i : nat) (t : StopTask) (o : settled Uri) : Action :=
  (match o with
   | Fulfilled fileUri =>
       with_device (filter (fun h => h <> stop_handle t))
       >>> setAudioQueue (Updater (fun prevQueue => prevQueue ++ [fileUri]))
       >>> emit (EvEnqueue fileUri)
       >>> setRecording (Value None)
   | Rejected => skip
   end)
  >>> with_stopping (delete i)
  >>> run_next (stop_next t).

Definition clearRecordings : Action :=
  setTranscriptions (Value []).

(** ** The event loop *)

Inductive Label :=
| PressToggle                 (* the record / stop button *)
| PressClear                  (* the clear button *)
| IntervalFire                (* the 6000 ms interval *)
| QueueEffect                 (* the effect on [audioQueue, isProcessing] *)
| StartSettled (o : StartOutcome)
| StopSettled (i : nat) (o : settled Uri)
| TranscribeSettled (i : nat) (o : settled AxiosResponse)
| AnalyzeSettled (i : nat) (o : settled AxiosResponse)
| DeleteSettled (i : nat) (o : settled ()).

Definition onPress : Action := fun w =>
  if isRecording w
  then (setIsRecording (Value false) >>> stopRecording ThenNothing) w
  else startRecording w.

(** The interval exists only while [isRecording]; its callback does
    something only when it sees a handle. *)
Definition onInterval : Action := fun w =>
  if isRecording w then
    match recording w with
    | Some _ => stopRecording ThenStartRecording w
    | None => w
    end
  else w.

Definition step (l : Label) : Action := fun w =>
  match l with
  | PressToggle => onPress w
  | PressClear => clearRecordings w
  | IntervalFire => onInterval w
  | QueueEffect => queueEffect w
  | StartSettled o =>
      match starting w with
      | S _ => (with_starting pred >>> after_start o) w
      | O => w
      end
  | StopSettled i o =>
      match stopping w !! i with
      | Some t => after_stop i t o w
      | None => w
      end
  | TranscribeSettled i o =>
      match processing w !! i with
      | Some (AwaitTranscribe currentAudio remainingQueue) =>
          after_transcribe i currentAudio remainingQueue (transcribeAudio o) w
      | _ => w
      end
  | AnalyzeSettled i o =>
      match processing w !! i with
      | Some (AwaitAnalyze currentAudio remainingQueue t) =>
          after_analyze i currentAudio remainingQueue t (analyzeAudio o) w
      | _ => w
      end
  | DeleteSettled i o =>
      match processing w !! i with
      | Some (AwaitDelete _ remainingQueue) => after_delete i remainingQueue o w
      | _ => w
      end
  end.

Definition run (ls : list Label) (w : World) : World :=
  foldl (fun w l => step l w) w ls.

Definition reachable (w : World) : Prop := exists ls, w = run ls init.

(** * Vocabulary of the properties *)

(** ** Histories read off the log *)

Definition enqueue_of (e : Event) : option Uri :=
  match e with EvEnqueue u => Some u | _ => None end.

Definition append_of (e : Event) : option (Uri * TranscriptionRecord) :=
  match e with EvAppend u r => Some (u, r) | _ => None end.

(** Every segment ever put on the queue, oldest first. *)
Definition enqueued (w : World) : list Uri := omap enqueue_of (trace w).

(** Every record ever appended to the display list, with the segment it
    came from, oldest first. *)
Definition appended (w : World) : list (Uri * TranscriptionRecord) :=
  omap append_of (trace w).

(** The records on display, each with the segment it came from: the
    last [length (transcriptions w)] of the appended ones. *)
Definition shown (w : World) : list (Uri * TranscriptionRecord) :=
  drop (length (appended w) - length (transcriptions w)) (appended w).

(** The segments an activation still stands for: the one in hand until
    its result has been used, and the rest of the queue it captured. *)
Definition pending (t : ProcTask) : list Uri :=
  match t with
  | AwaitTranscribe currentAudio remainingQueue => currentAudio :: remainingQueue
  | AwaitAnalyze currentAudio remainingQueue _ => currentAudio :: remainingQueue
  | AwaitDelete _ remainingQueue => remainingQueue
  end.

(** Labels that do not resume [processAudioQueue]. *)
Definition foreign (l : Label) : bool :=
  match l with
  | TranscribeSettled _ _ | AnalyzeSettled _ _ | DeleteSettled _ _ => false
  | _ => true
  end.

(** Log entries of the recorder: no remote call on a segment, no
    deletion, no record. *)
Definition quiet (e : Event) : bool :=
  match e with
  | EvPost _ _ | EvDelete _ | EvAppend _ _ => false
  | _ => true
  end.

(** ** The invariant of the upload queue processor

    At most one activation; the busy flag says whether there is one; the
    segments already displayed followed by those still to be processed
    (the queue when idle, what the activation captured otherwise) come
    in the order in which segments were queued; the display list is the
    tail of what was appended. *)
Record Inv (w : World) : Prop := mkInv {
  inv_single : length (processing w) <= 1;
  inv_busy : isProcessing w = negb (bool_decide (processing w = []));
  inv_order :
    sublist ((appended w).*1 ++
             match processing w with
             | [] => audioQueue w
             | t :: _ => pending t
             end)
            (enqueued w);
  inv_shown : transcriptions w `suffix_of` (appended w).*2;
}.

(** While the busy flag is up, a step that does not resume
    [processAudioQueue] leaves the activation and the flag alone and
    only adds recorder entries to the log. *)
Record Frame (w w' : World) : Prop := mkFrame {
  frame_processing : processing w' = processing w;
  frame_busy : isProcessing w' = isProcessing w;
  frame_trace : exists es, trace w' = trace w ++ es /\ forallb quiet es = true;
}.

(** ** One segment from the effect to the end of [finally]

    [between1], [between2], [between3] are whatever the rest of the
    component does while the three awaits of the activation are pending;
    [o1], [o2], [o3] are the ways the two requests and the deletion
    settle. *)

(** The world while the transcribe request is pending, ... *)
Definition at_transcribe (w : World) (between1 : list Label) : World :=
  run between1 (step QueueEffect w).

(** ... while the analyze request is pending, ... *)
Definition at_analyze (w : World) (between1 between2 : list Label)
    (o1 : settled AxiosResponse) : World :=
  run between2 (step (TranscribeSettled 0 o1) (at_transcribe w between1)).

(** ... while the deletion is pending, ... *)
Definition at_delete (w : World) (between1 between2 between3 : list Label)
    (o1 o2 : settled AxiosResponse) : World :=
  run between3 (step (AnalyzeSettled 0 o2) (at_analyze w between1 between2 o1)).

(** ... and when the activation has returned. *)
Definition at_end (w : World) (between1 between2 between3 : list Label)
    (o1 o2 : settled AxiosResponse) (o3 : settled ()) : World :=
  step (DeleteSettled 0 o3) (at_delete w between1 between2 between3 o1 o2).

(** ** The audio library *)




(** ** The program's own runs

    React runs the effect on [audioQueue, isProcessing] after the render
    that follows a handler; on the program's runs each step is a handler
    followed by the effect. *)
Definition program_step (l : Label) (w : World) : World :=
  step QueueEffect (step l w).

Definition program_run (ls : list Label) (w : World) : World :=
  foldl (fun w l => program_step l w) w ls.

(** ** Concrete outcomes, runs and worlds *)

Definition granted (h : Handle) : StartOutcome :=
  {| perm_status := Fulfilled "granted"%string;
     audio_mode := Fulfilled ();
     created := Fulfilled h |}.

Definition json (k : string) (v : Js.value) : settled AxiosResponse :=
  Fulfilled {| data := Some {[ k := v ]} |}.

Definition segmentA : Uri := "file:///cache/Audio/recording-A.3gp"%string.
Definition segmentB : Uri := "file:///cache/Audio/recording-B.3gp"%string.

(** A recording is running, nothing else. *)
Definition recording_world : World :=
  run [PressToggle; StartSettled (granted 1)] init.

(** One segment recorded and stopped by the user: the queue is
    [[segmentA]], nothing is being processed. *)
Definition one_segment : World :=
  run [PressToggle; StartSettled (granted 1); PressToggle;
       StopSettled 0 (Fulfilled segmentA)] init.

(** Two segments recorded in one session, both processed to the end. *)
Definition two_records : World :=
  run [ PressToggle; StartSettled (granted 1);
        IntervalFire; StopSettled 0 (Fulfilled segmentA);
        StartSettled (granted 2);
        PressToggle; StopSettled 0 (Fulfilled segmentB);
        QueueEffect;
        TranscribeSettled 0 (json "transcription" (Str "hello"));
        AnalyzeSettled 0 Rejected; DeleteSettled 0 (Fulfilled ());
        QueueEffect;
        TranscribeSettled 0 (json "transcription" (Str "world"));
        AnalyzeSettled 0 (json "analysis" (Str "calm"));
        DeleteSettled 0 Rejected ] init.

(** A session in which the user stops while the previous segment is
    being processed: the timer queues A and the effect starts on it; the
    next recording starts; the user taps stop and B is queued; then the
    two remote calls of A settle.  Only the deletion of A's file is
    still pending. *)
Definition stop_during_processing : list Label :=
  [ PressToggle; StartSettled (granted 1);
    IntervalFire; StopSettled 0 (Fulfilled segmentA);
    QueueEffect;
    StartSettled (granted 2);
    PressToggle; StopSettled 0 (Fulfilled segmentB);
    TranscribeSettled 0 (json "transcription" (Str "hello"));
    AnalyzeSettled 0 (json "analysis" (Str "calm")) ].



(** ** Sentences of the specification that the code does not satisfy *)

(** Second half of C3 as worded: whenever the transcribe call succeeded
    with text [t] and the analyze call fails, the record
    [{text: t, analysis: null}] is appended. *)
Definition record_on_analysis_failure (t : string) : Prop :=
  forall (w : World) (between1 between2 : list Label) (d : gmap string Js.value),
    reachable w -> audioQueue w <> [] -> isProcessing w = false ->
    forallb foreign between1 = true -> forallb foreign between2 = true ->
    d !! "transcription"%string = Some (Str t) ->
    let v := run (QueueEffect :: between1
                    ++ TranscribeSettled 0 (Fulfilled {| data := Some d |}) :: between2) w in
    transcriptions (step (AnalyzeSettled 0 Rejected) v)
      = transcriptions v ++ [{| text := Str t; analysis := Null |}].

(** First half of C6 as worded: called with an active recording,
    [stopRecording] leaves one more segment at the tail of the queue and
    no handle; here for the call followed at once by the settlement [o]
    of [stopAndUnloadAsync]. *)
Definition stop_enqueues_and_clears (w : World) (o : settled Uri) : Prop :=
  forall r, recording w = Some r ->
    let w' := step (StopSettled (length (stopping w)) o) (stopRecording ThenNothing w) in
    (exists fileUri, audioQueue w' = audioQueue w ++ [fileUri]) /\
    recording w' = None.

(** ** At most one recording session *)


(** ** Vocabulary of the further properties *)

(** The segments posted to an endpoint, and those whose deletion was
    requested, oldest first. *)
Definition post_of (url : string) (e : Event) : option Uri :=
  match e with
  | EvPost u x => if String.eqb u url then Some x else None
  | _ => None
  end.

Definition delete_of (e : Event) : option Uri :=
  match e with EvDelete x => Some x | _ => None end.

Definition posted (url : string) (w : World) : list Uri :=
  omap (post_of url) (trace w).

Definition deleted (w : World) : list Uri := omap delete_of (trace w).

(** The segment whose transcribe request has been issued and whose
    deletion has not yet been requested; likewise for analyze. *)
Definition transcribing (ts : list ProcTask) : list Uri :=
  match ts with
  | AwaitTranscribe c _ :: _ => [c]
  | AwaitAnalyze c _ _ :: _ => [c]
  | _ => []
  end.

Definition analyzing (ts : list ProcTask) : list Uri :=
  match ts with
  | AwaitAnalyze c _ _ :: _ => [c]
  | _ => []
  end.

(** The part of the queue an activation captured. *)
Definition captured (t : ProcTask) : list Uri :=
  match t with
  | AwaitTranscribe _ remainingQueue => remainingQueue
  | AwaitAnalyze _ remainingQueue _ => remainingQueue
  | AwaitDelete _ remainingQueue => remainingQueue
  end.

(** Requests and deletions go together. *)
Record Ledger (w : World) : Prop := mkLedger {
  ledger_transcribe :
    posted transcribe_url w = deleted w ++ transcribing (processing w);
  ledger_analyze :
    posted analyze_url w = deleted w ++ analyzing (processing w);
}.

(** What is uploaded, then what is still to be uploaded, comes in the
    order of recording; so does the queue. *)
Record Uploads (w : World) : Prop := mkUploads {
  up_order :
    sublist (posted transcribe_url w ++
             match processing w with
             | [] => audioQueue w
             | t :: _ => captured t
             end)
            (enqueued w);
  up_queue : sublist (audioQueue w) (enqueued w);
}.

(** The value of the [analysis] field of a record, read off the way the
    analyze request settled. *)
Definition analysis_of (o2 : settled AxiosResponse) : Js.value :=
  match o2 with
  | Fulfilled {| data := Some d |} => default Undefined (d !! "analysis"%string)
  | _ => Null
  end.

(** The record, if any, that the two settlements of a segment give. *)
Definition record_for (o1 o2 : settled AxiosResponse) : list TranscriptionRecord :=
  match o1 with
  | Fulfilled {| data := Some d |} =>
      match d !! "transcription"%string with
      | Some (Str (String c s)) =>
          [{| text := Str (String c s); analysis := analysis_of o2 |}]
      | _ => []
      end
  | _ => []
  end.

(** Labels of the upload queue processor: the effect and the three
    settlements. *)
Definition uploader (l : Label) : bool :=
  match l with
  | QueueEffect | TranscribeSettled _ _ | AnalyzeSettled _ _ | DeleteSettled _ _ => true
  | _ => false
  end.

(** A timer rollover that goes well: the running recording is stopped
    and yields [u], the next one starts with handle [h]. *)
Definition rollover (s : Uri * Handle) : list Label :=
  [ IntervalFire; StopSettled 0 (Fulfilled s.1); StartSettled (granted s.2) ].

(** The events of the recorder, as opposed to those of the processor
    and the clear button. *)
Definition recorder_label (l : Label) : bool :=
  match l with
  | PressToggle | IntervalFire | StartSettled _ | StopSettled _ _ => true
  | _ => false
  end.

(** What the recorder reads and writes, and the history of what it
    recorded. *)
Definition recorder_state (w : World) :
    option Handle * bool * nat * list StopTask * list Handle * list Uri :=
  (recording w, isRecording w, starting w, stopping w, device w, enqueued w).

(** The recorder's events of a whole session, in order: the start tap
    and its settlement, the rollovers, the stop tap and its settlement.
    A run of the component has the events of the processor in between. *)
Definition session (h0 : Handle) (segs : list (Uri * Handle)) (last : Uri) : list Label :=
  [PressToggle; StartSettled (granted h0)]
  ++ flat_map rollover segs
  ++ [PressToggle; StopSettled 0 (Fulfilled last)].

(** The recorder is at rest: no handle, the button offers start,
    nothing pending, nothing held by the device. *)
Definition at_rest (w : World) : Prop :=
  recording w = None /\ isRecording w = false /\
  starting w = 0 /\ stopping w = [] /\ device w = [].

(** A rollover has stopped the recording and its [startRecording] is
    pending, while the button still shows stop. *)
Definition restarting (w : World) : Prop :=
  recording w = None /\ isRecording w = true /\ 0 < starting w.

(** A recording with handle [h] is running and the queue is [q]. *)
Definition running (h : Handle) (q : list Uri) (w : World) : Prop :=
  recording w = Some h /\ isRecording w = true /\
  starting w = 0 /\ stopping w = [] /\ device w = [h] /\ audioQueue w = q.

(** A session with one rollover as the program runs it: the effect
    after every handler, and the settlements of the upload of A in
    between. *)
Definition session_with_uploads : list Label :=
  [ PressToggle; QueueEffect; StartSettled (granted 1); QueueEffect;
    IntervalFire; QueueEffect;
    StopSettled 0 (Fulfilled segmentA); QueueEffect;
    TranscribeSettled 0 (json "transcription" (Str "hello")); QueueEffect;
    StartSettled (granted 2); QueueEffect;
    PressClear; QueueEffect;
    PressToggle; QueueEffect;
    StopSettled 0 (Fulfilled segmentB); QueueEffect;
    AnalyzeSettled 0 Rejected; QueueEffect;
    DeleteSettled 0 (Fulfilled ()); QueueEffect ].

(** The handlers of a session in which a segment is queued while the
    previous one is being processed. *)
Definition busy_session : list Label :=
  [ PressToggle; StartSettled (granted 1);
    IntervalFire; StopSettled 0 (Fulfilled segmentA);
    StartSettled (granted 2);
    PressToggle; StopSettled 0 (Fulfilled segmentB);
    TranscribeSettled 0 (json "transcription" (Str "hello"));
    AnalyzeSettled 0 Rejected ].

(** The timer has just stopped a recording; the start of the next one
    is pending. *)
Definition rollover_pending : World :=
  run [ PressToggle; StartSettled (granted 1);
        IntervalFire; StopSettled 0 (Fulfilled segmentA) ] init.

(** * Lemmas *)

(** ** Basic facts about runs *)

Lemma run_nil w : run [] w = w.
Proof. reflexivity. Qed.

Lemma run_cons l ls w : run (l :: ls) w = run ls (step l w).
Proof. reflexivity. Qed.

Lemma run_app ls1 ls2 w : run (ls1 ++ ls2) w = run ls2 (run ls1 w).
Proof. unfold run. apply foldl_app. Qed.

Lemma run_snoc ls l w : run (ls ++ [l]) w = step l (run ls w).
Proof. by rewrite run_app. Qed.

Lemma reachable_init : reachable init.
Proof. by exists []. Qed.

Lemma reachable_step l w : reachable w -> reachable (step l w).
Proof. intros [ls ->]. exists (ls ++ [l]). by rewrite run_snoc. Qed.

Lemma reachable_run ls w : reachable w -> reachable (run ls w).
Proof.
  revert w. induction ls as [|l ls IH]; intros w Hw; [done|].
  rewrite run_cons. by apply IH, reachable_step.
Qed.

(** An invariant that holds initially and is kept by every step holds in
    every reachable world. *)
Lemma reachable_ind (P : World -> Prop) :
  P init -> (forall l w, P w -> P (step l w)) -> forall w, reachable w -> P w.
Proof.
  intros H0 Hstep w [ls ->].
  induction ls as [|l ls IH] using rev_ind; [done|].
  rewrite run_snoc. by apply Hstep.
Qed.

(** ** The invariant is kept *)

Lemma init_inv : Inv init.
Proof. split; simpl; [lia | done | constructor | done]. Qed.

Lemma sublist_drop_middle {A} (l1 l2 k : list A) (x : A) :
  sublist (l1 ++ x :: l2) k -> sublist (l1 ++ l2) k.
Proof.
  intros H. trans (l1 ++ x :: l2); [|done].
  apply sublist_app; [done|]. by apply sublist_cons.
Qed.

Ltac unfold_handlers :=
  unfold onPress, onInterval, clearRecordings, queueEffect, processAudioQueue,
    stopRecording, startRecording, after_start, after_stop, run_next,
    after_transcribe, after_analyze, after_delete, enter_finally,
    then_, skip in *.

Ltac inv_split :=
  split; unfold enqueued, appended; simpl;
  rewrite ?omap_app, ?fmap_app; simpl; rewrite ?app_nil_r, <- ?app_assoc; simpl.

Lemma step_inv l w : Inv w -> Inv (step l w).
Proof.
  destruct w as [rec isRec trs q isP procs st stops dev tr].
  intros [H1 H2 H3 H4]. unfold enqueued, appended in *. simpl in *.
  destruct l; simpl; unfold_handlers; simpl.
  - (* PressToggle *)
    destruct isRec, rec; inv_split; done.
  - (* PressClear *)
    inv_split; try done. apply suffix_nil.
  - (* IntervalFire *)
    destruct isRec, rec; inv_split; done.
  - (* QueueEffect *)
    destruct q as [|currentAudio remainingQueue]; simpl; [by inv_split|].
    destruct isP; simpl; [by inv_split|].
    destruct procs; [|done]. inv_split; done.
  - (* StartSettled *)
    destruct st; [by inv_split|]. simpl.
    destruct (startRecording_body o) as [[h|]|]; inv_split; done.
  - (* StopSettled *)
    destruct (stops !! i) as [[h k]|]; [|by inv_split]. simpl.
    destruct o as [fileUri|], k; inv_split; try done.
    all: destruct procs as [|t procs];
      [ rewrite app_assoc; by apply sublist_app
      | by apply sublist_inserts_r ].
  - (* TranscribeSettled *)
    destruct procs as [|t [|t' procs]]; simpl in *; [by inv_split| |lia].
    destruct i as [|i]; simpl; [|by inv_split].
    destruct t; try by inv_split.
    destruct (transcribeAudio o); inv_split; try done.
    by eapply sublist_drop_middle.
  - (* AnalyzeSettled *)
    destruct procs as [|t [|t' procs]]; simpl in *; [by inv_split| |lia].
    destruct i as [|i]; simpl; [|by inv_split].
    destruct t; try by inv_split.
    destruct (analyzeAudio o) as [analysisPromise|].
    + destruct (truthy transcriptionPromise); simpl; inv_split; try done.
      * by apply suffix_app.
      * by eapply sublist_drop_middle.
    + inv_split; try done. by eapply sublist_drop_middle.
  - (* DeleteSettled *)
    destruct procs as [|t [|t' procs]]; simpl in *; [by inv_split| |lia].
    destruct i as [|i]; simpl; [|by inv_split].
    destruct t; inv_split; try done. lia.
Qed.

Lemma reachable_inv w : reachable w -> Inv w.
Proof. apply reachable_ind; [apply init_inv | apply step_inv]. Qed.

(** ** What the rest of the component does while a segment is in hand *)

Lemma Frame_refl w : Frame w w.
Proof. split; [done..|]. exists []. by rewrite app_nil_r. Qed.

Lemma Frame_trans w1 w2 w3 : Frame w1 w2 -> Frame w2 w3 -> Frame w1 w3.
Proof.
  intros [Hp1 Hb1 (es1 & Ht1 & Hq1)] [Hp2 Hb2 (es2 & Ht2 & Hq2)].
  split; [congruence..|].
  exists (es1 ++ es2). rewrite Ht2, Ht1, app_assoc. split; [done|].
  rewrite forallb_app. by rewrite Hq1, Hq2.
Qed.

Ltac frame_split :=
  split; simpl; [done | done | eexists; split; [try reflexivity|]].

Lemma foreign_step_frame l w :
  foreign l = true -> isProcessing w = true -> Frame w (step l w).
Proof.
  destruct w as [rec isRec trs q isP procs st stops dev tr].
  simpl. intros Hl ->.
  destruct l; try discriminate; simpl; unfold_handlers; simpl.
  - destruct isRec, rec; simpl; frame_split; first [done | by rewrite app_nil_r].
  - frame_split; [by rewrite app_nil_r | done].
  - destruct isRec, rec; simpl; frame_split; first [done | by rewrite app_nil_r].
  - rewrite orb_true_r, andb_false_r. apply Frame_refl.
  - destruct st; [apply Frame_refl|]. simpl.
    destruct (startRecording_body o) as [[h|]|]; simpl;
      frame_split; first [done | by rewrite app_nil_r].
  - destruct (stops !! i) as [[h k]|]; [|apply Frame_refl]. simpl.
    destruct o as [fileUri|], k; simpl; frame_split;
      first [done | by rewrite app_nil_r | by rewrite <- app_assoc].
Qed.

Lemma foreign_run_frame ls w :
  forallb foreign ls = true -> isProcessing w = true -> Frame w (run ls w).
Proof.
  revert w. induction ls as [|l ls IH]; intros w Hls Hw; [apply Frame_refl|].
  simpl in Hls. apply andb_true_iff in Hls as [Hl Hls]. rewrite run_cons.
  pose proof (foreign_step_frame l w Hl Hw) as HF.
  eapply Frame_trans; [exact HF|]. apply IH; [done|].
  by rewrite (frame_busy _ _ HF).
Qed.

(** ** The stages of one segment *)

Lemma transcribeAudio_settles o : exists t, transcribeAudio o = Fulfilled t.
Proof. destruct o as [[[d|]]|]; simpl; eauto. Qed.

Lemma analyzeAudio_settles o : exists a, analyzeAudio o = Fulfilled a.
Proof. destruct o as [[[d|]]|]; simpl; eauto. Qed.

Lemma transcribeAudio_response d :
  transcribeAudio (Fulfilled {| data := Some d |})
  = Fulfilled (default Undefined (d !! "transcription"%string)).
Proof. reflexivity. Qed.

Lemma analyzeAudio_response d :
  analyzeAudio (Fulfilled {| data := Some d |})
  = Fulfilled (default Undefined (d !! "analysis"%string)).
Proof. reflexivity. Qed.

Lemma idle_no_activation w : Inv w -> isProcessing w = false -> processing w = [].
Proof.
  intros [_ Hb _ _] Hi. rewrite Hi in Hb.
  symmetry in Hb. apply negb_false_iff, bool_decide_eq_true in Hb. done.
Qed.

(** The effect finds a non-empty queue and an idle processor. *)
Lemma stage_begin w currentAudio remainingQueue :
  processing w = [] -> audioQueue w = currentAudio :: remainingQueue ->
  isProcessing w = false ->
  let w' := step QueueEffect w in
  processing w' = [AwaitTranscribe currentAudio remainingQueue] /\
  isProcessing w' = true /\
  trace w' = trace w ++ [EvPost transcribe_url currentAudio] /\
  transcriptions w' = transcriptions w /\
  audioQueue w' = audioQueue w.
Proof.
  destruct w; simpl. intros -> -> ->. done.
Qed.

Lemma stage_transcribe w currentAudio remainingQueue o t :
  processing w = [AwaitTranscribe currentAudio remainingQueue] ->
  transcribeAudio o = Fulfilled t ->
  let w' := step (TranscribeSettled 0 o) w in
  processing w' = [AwaitAnalyze currentAudio remainingQueue t] /\
  isProcessing w' = isProcessing w /\
  trace w' = trace w ++ [EvPost analyze_url currentAudio] /\
  transcriptions w' = transcriptions w /\
  audioQueue w' = audioQueue w.
Proof.
  destruct w; simpl. intros -> Ht. rewrite Ht. done.
Qed.

Lemma stage_analyze w currentAudio remainingQueue t o a :
  processing w = [AwaitAnalyze currentAudio remainingQueue t] ->
  analyzeAudio o = Fulfilled a ->
  let w' := step (AnalyzeSettled 0 o) w in
  let r := {| text := t; analysis := a |} in
  processing w' = [AwaitDelete currentAudio remainingQueue] /\
  isProcessing w' = isProcessing w /\
  trace w' = trace w ++ (if truthy t then [EvAppend currentAudio r] else [])
                     ++ [EvDelete currentAudio] /\
  transcriptions w' = transcriptions w ++ (if truthy t then [r] else []) /\
  audioQueue w' = audioQueue w.
Proof.
  destruct w; simpl. intros -> Ha. simpl. rewrite Ha.
  unfold after_analyze, enter_finally, then_, skip.
  destruct t as [| |[|c s]]; simpl; by rewrite <- ?app_assoc, ?app_nil_r.
Qed.

Lemma stage_delete w currentAudio remainingQueue o :
  processing w = [AwaitDelete currentAudio remainingQueue] ->
  let w' := step (DeleteSettled 0 o) w in
  processing w' = [] /\
  isProcessing w' = false /\
  trace w' = trace w /\
  transcriptions w' = transcriptions w /\
  audioQueue w' = remainingQueue.
Proof.
  destruct w; simpl. intros ->. done.
Qed.

(** ** One segment, stage by stage *)

Section Segment.

Variables (w : World) (currentAudio : Uri) (remainingQueue : list Uri).
Variables (between1 between2 between3 : list Label).
Variables (o1 o2 : settled AxiosResponse) (o3 : settled ()).
Variables (t a : Js.value).

Hypothesis Hidle : processing w = [].
Hypothesis Hqueue : audioQueue w = currentAudio :: remainingQueue.
Hypothesis Hflag : isProcessing w = false.
Hypothesis Hb1 : forallb foreign between1 = true.
Hypothesis Hb2 : forallb foreign between2 = true.
Hypothesis Hb3 : forallb foreign between3 = true.
Hypothesis Ht : transcribeAudio o1 = Fulfilled t.
Hypothesis Ha : analyzeAudio o2 = Fulfilled a.

Local Abbreviation w1 := (at_transcribe w between1).
Local Abbreviation w2 := (at_analyze w between1 between2 o1).
Local Abbreviation w3 := (at_delete w between1 between2 between3 o1 o2).
Local Abbreviation w4 := (at_end w between1 between2 between3 o1 o2 o3).

Lemma at_transcribe_spec :
  processing w1 = [AwaitTranscribe currentAudio remainingQueue] /\
  isProcessing w1 = true /\
  exists es, trace w1 = trace w ++ EvPost transcribe_url currentAudio :: es
             /\ forallb quiet es = true.
Proof.
  destruct (stage_begin w _ _ Hidle Hqueue Hflag) as (Hp & Hb & Htr & _).
  destruct (foreign_run_frame between1 _ Hb1 Hb) as [Fp Fb (es & Fe & Fq)].
  unfold at_transcribe. rewrite Fp, Fb, Fe, Hp, Hb, Htr, <- app_assoc. eauto.
Qed.

Lemma at_analyze_spec :
  processing w2 = [AwaitAnalyze currentAudio remainingQueue t] /\
  isProcessing w2 = true /\
  exists es, trace w2 = trace w1 ++ EvPost analyze_url currentAudio :: es
             /\ forallb quiet es = true.
Proof.
  destruct at_transcribe_spec as (Hp0 & Hb0 & _).
  destruct (stage_transcribe _ _ _ _ _ Hp0 Ht) as (Hp & Hb & Htr & _).
  rewrite Hb0 in Hb.
  destruct (foreign_run_frame between2 _ Hb2 Hb) as [Fp Fb (es & Fe & Fq)].
  unfold at_analyze. rewrite Fp, Fb, Fe, Hp, Hb, Htr, <- app_assoc. eauto.
Qed.

Lemma at_delete_spec :
  let w' := step (AnalyzeSettled 0 o2) w2 in
  let r := {| text := t; analysis := a |} in
  transcriptions w' = transcriptions w2 ++ (if truthy t then [r] else []) /\
  trace w' = trace w2 ++ (if truthy t then [EvAppend currentAudio r] else [])
                      ++ [EvDelete currentAudio] /\
  processing w3 = [AwaitDelete currentAudio remainingQueue] /\
  isProcessing w3 = true /\
  exists es, trace w3 = trace w' ++ es /\ forallb quiet es = true.
Proof.
  destruct at_analyze_spec as (Hp0 & Hb0 & _).
  destruct (stage_analyze _ _ _ _ _ _ Hp0 Ha) as (Hp & Hb & Htr & Hts & _).
  rewrite Hb0 in Hb.
  destruct (foreign_run_frame between3 _ Hb3 Hb) as [Fp Fb (es & Fe & Fq)].
  unfold at_delete. rewrite Fp, Fb, Hp, Hb. eauto 10.
Qed.

Lemma at_end_spec :
  processing w4 = [] /\
  isProcessing w4 = false /\
  audioQueue w4 = remainingQueue /\
  trace w4 = trace w3 /\
  transcriptions w4 = transcriptions w3.
Proof.
  destruct at_delete_spec as (_ & _ & Hp0 & _).
  destruct (stage_delete _ _ _ o3 Hp0) as (Hp & Hb & Htr & Hts & Hq).
  unfold at_end. done.
Qed.

(** The log of the whole activation: the two requests one after the
    other, the record if there is one, the deletion; in between, only
    recorder entries. *)
Lemma segment_trace :
  exists es1 es2 es3,
    forallb quiet es1 = true /\ forallb quiet es2 = true /\ forallb quiet es3 = true /\
    trace w4
    = trace w
      ++ EvPost transcribe_url currentAudio :: es1
      ++ EvPost analyze_url currentAudio :: es2
      ++ (if truthy t then [EvAppend currentAudio {| text := t; analysis := a |}] else [])
      ++ EvDelete currentAudio :: es3.
Proof.
  destruct at_transcribe_spec as (_ & _ & es1 & E1 & Q1).
  destruct at_analyze_spec as (_ & _ & es2 & E2 & Q2).
  destruct at_delete_spec as (_ & E3 & _ & _ & es3 & E4 & Q3).
  destruct at_end_spec as (_ & _ & _ & E5 & _).
  exists es1, es2, es3. split; [done|]. split; [done|]. split; [done|].
  rewrite E5, E4, E3, E2, E1.
  repeat (rewrite <- app_assoc; simpl). done.
Qed.

End Segment.

(** The stages laid out as runs. *)
Lemma at_end_run w between1 between2 between3 o1 o2 o3 :
  run (QueueEffect :: between1 ++ TranscribeSettled 0 o1 :: between2
         ++ AnalyzeSettled 0 o2 :: between3 ++ [DeleteSettled 0 o3]) w
  = at_end w between1 between2 between3 o1 o2 o3.
Proof.
  unfold at_end, at_delete, at_analyze, at_transcribe.
  rewrite run_cons, run_app, run_cons, run_app, run_cons, run_app. done.
Qed.

Lemma at_analyze_run w between1 between2 o1 :
  run (QueueEffect :: between1 ++ TranscribeSettled 0 o1 :: between2) w
  = at_analyze w between1 between2 o1.
Proof.
  unfold at_analyze, at_transcribe. by rewrite run_cons, run_app, run_cons.
Qed.

(** The queue at the end of an activation is the captured list, whatever
    was queued while the activation was pending. *)
Lemma queue_after_processing w currentAudio remainingQueue
    between1 between2 between3 o1 o2 o3 :
  reachable w ->
  audioQueue w = currentAudio :: remainingQueue ->
  isProcessing w = false ->
  forallb foreign between1 = true ->
  forallb foreign between2 = true ->
  forallb foreign between3 = true ->
  audioQueue (run (QueueEffect :: between1 ++ TranscribeSettled 0 o1 :: between2
                     ++ AnalyzeSettled 0 o2 :: between3 ++ [DeleteSettled 0 o3]) w)
  = remainingQueue.
Proof.
  intros Hr Hq Hb H1 H2 H3.
  assert (processing w = []) as Hp
    by (apply idle_no_activation; [by apply reachable_inv | done]).
  destruct (transcribeAudio_settles o1) as [t Ht].
  destruct (analyzeAudio_settles o2) as [a Ha].
  rewrite at_end_run.
  by destruct (at_end_spec w currentAudio remainingQueue between1 between2 between3
              o1 o2 o3 t a Hp Hq Hb H1 H2 H3 Ht Ha) as (_ & _ & Eq & _).
Qed.

(** Two positions of a sublist are two positions of the list, in the
    same order. *)
Lemma sublist_lookup_order {A} (l k : list A) (i j : nat) (x y : A) :
  sublist l k -> l !! i = Some x -> l !! j = Some y -> i < j ->
  exists i' j', i' < j' /\ k !! i' = Some x /\ k !! j' = Some y.
Proof.
  intros Hs. revert i j. induction Hs as [|z l k Hs IH|z l k Hs IH]; intros i j Hi Hj Hij.
  - done.
  - destruct i as [|i]; simpl in Hi.
    + destruct j as [|j]; [lia|]. simpl in Hj.
      injection Hi as ->.
      apply list_elem_of_lookup_2 in Hj.
      apply (fun H => elem_of_sublist _ _ _ H Hs) in Hj.
      apply list_elem_of_lookup_1 in Hj as [j' Hj'].
      exists 0, (S j'). split; [lia|]. done.
    + destruct j as [|j]; [lia|]. simpl in Hj.
      destruct (IH i j Hi Hj) as (i' & j' & Hlt & Hi' & Hj'); [lia|].
      exists (S i'), (S j'). split; [lia|]. done.
  - destruct (IH i j Hi Hj Hij) as (i' & j' & Hlt & Hi' & Hj').
    exists (S i'), (S j'). split; [lia|]. done.
Qed.

(** ** An exclusive audio library *)




(** * The claims *)

(** ** C1: single flight *)

(** C1.  In every reachable world at most one activation of
    [processAudioQueue] is in progress, and there is one exactly when
    the busy flag is up.  A call of [processAudioQueue] does nothing
    when the flag is up or the queue is empty; otherwise it raises the
    flag and only then issues the transcribe request for the head of the
    queue.  No step other than the queue effect, taken with the flag
    down and a non-empty queue, ever starts an activation. *)
Theorem single_flight (w : World) :
  reachable w ->
  length (processing w) <= 1 /\
  (processing w <> [] <-> isProcessing w = true) /\
  (isProcessing w = true -> processAudioQueue w = w) /\
  (audioQueue w = [] -> processAudioQueue w = w) /\
  (forall currentAudio remainingQueue,
     audioQueue w = currentAudio :: remainingQueue -> isProcessing w = false ->
     processAudioQueue w =
       (emit (EvPost transcribe_url currentAudio)
        >>> with_processing (fun ts => ts ++ [AwaitTranscribe currentAudio remainingQueue]))
         (setIsProcessing (Value true) w) /\
     processing (processAudioQueue w) = [AwaitTranscribe currentAudio remainingQueue]) /\
  (forall l, length (processing w) < length (processing (step l w)) ->
     l = QueueEffect /\ isProcessing w = false /\ audioQueue w <> [] /\
     isProcessing (step l w) = true).
Proof.
  intros Hr. pose proof (reachable_inv w Hr) as HI.
  destruct HI as [H1 H2 _ _].
  split; [done|]. split.
  { rewrite H2. destruct (processing w); simpl; split; done. }
  split.
  { intros Hb. unfold processAudioQueue. by rewrite Hb, orb_true_r. }
  split.
  { intros Hq. unfold processAudioQueue. by rewrite Hq. }
  split.
  { intros currentAudio remainingQueue Hq Hb.
    assert (processing w = []) as Hp.
    { apply idle_no_activation; [by apply reachable_inv | done]. }
    unfold processAudioQueue. rewrite Hq, Hb. simpl.
    split; [done|]. unfold then_. simpl. by rewrite Hp. }
  intros l Hlt.
  destruct w as [rec isRec trs q isP procs st stops dev tr]. simpl in *.
  destruct l; simpl in Hlt; unfold_handlers; simpl in *.
  - destruct isRec, rec; simpl in Hlt; exfalso; lia.
  - exfalso; lia.
  - destruct isRec, rec; simpl in Hlt; exfalso; lia.
  - destruct q as [|currentAudio remainingQueue]; simpl in *; [exfalso; lia|].
    destruct isP; simpl in *; [exfalso; lia|]. done.
  - exfalso. destruct st; simpl in Hlt; [lia|].
    destruct (startRecording_body o) as [[h|]|]; simpl in Hlt; lia.
  - exfalso. destruct (stops !! i) as [[h k]|]; simpl in Hlt; [|lia].
    destruct o as [fileUri|], k; simpl in Hlt; lia.
  - exfalso. destruct (procs !! i) as [[]|]; simpl in Hlt; try lia.
    destruct (transcribeAudio o); simpl in Hlt; rewrite length_insert in Hlt; lia.
  - exfalso. destruct (procs !! i) as [[]|]; simpl in Hlt; try lia.
    destruct (analyzeAudio o); [destruct (truthy transcriptionPromise)|];
      simpl in Hlt; rewrite length_insert in Hlt; lia.
  - exfalso. destruct (procs !! i) as [[]|] eqn:Hi; simpl in Hlt; try lia.
    rewrite length_delete in Hlt by (by eexists). lia.
Qed.

Lemma single_flight_witness :
  length (processing (step QueueEffect one_segment)) <= 1 /\
  processAudioQueue (step QueueEffect one_segment) = step QueueEffect one_segment /\
  processing (processAudioQueue one_segment) = [AwaitTranscribe segmentA []].
Proof.
  assert (reachable (step QueueEffect one_segment)) as Hr.
  { exists [PressToggle; StartSettled (granted 1); PressToggle;
            StopSettled 0 (Fulfilled segmentA); QueueEffect]. by vm_compute. }
  assert (reachable one_segment) as Hr' by (by eexists).
  pose proof (single_flight _ Hr) as (H1 & _ & H3 & _).
  pose proof (single_flight _ Hr') as (_ & _ & _ & _ & H5 & _).
  split; [exact H1|]. split.
  - apply H3. by vm_compute.
  - refine (proj2 (H5 segmentA [] _ _)); by vm_compute.
Defined.

(** ** C2: what the end of [finally] does to the queue *)

(** C2, the code at the failing input.  Just before the deletion
    settles the queue holds A (in hand) and B (queued by the stop button
    meanwhile).  When the activation returns, the queue is the
    [remainingQueue] captured when A's processing began, that is, empty,
    and the processor is idle: B is gone.  It was queued, but it is
    never sent to the service and its file is never deleted, and the
    effect finds nothing to do. *)
Theorem segment_queued_during_processing_is_lost :
  let before := run stop_during_processing init in
  let after := step (DeleteSettled 0 (Fulfilled ())) before in
  audioQueue before = [segmentA; segmentB] /\
  processing before = [AwaitDelete segmentA []] /\
  audioQueue after = [] /\
  isProcessing after = false /\
  processing after = [] /\
  enqueued after = [segmentA; segmentB] /\
  Forall (fun e => e <> EvPost transcribe_url segmentB /\
                   e <> EvPost analyze_url segmentB /\
                   e <> EvDelete segmentB) (trace after) /\
  step QueueEffect after = after.
Proof.
  cbv zeta. split; [by vm_compute|]. split; [by vm_compute|].
  split; [by vm_compute|]. split; [by vm_compute|]. split; [by vm_compute|].
  split; [by vm_compute|]. split; [|by vm_compute].
  vm_compute. repeat (constructor; [split; [|split]; discriminate|]). constructor.
Qed.

(** ** C3: which results make a record *)

(** C3, counterexample.  With the empty string as transcription and a
    failed analyze call, no record is appended. *)
Lemma record_on_analysis_failure_empty :
  ~ record_on_analysis_failure EmptyString.
Proof.
  intros H.
  specialize (H one_segment [] [] {[ "transcription"%string := Str EmptyString ]}).
  assert (reachable one_segment) as Hr by (by eexists).
  specialize (H Hr).
  assert (audioQueue one_segment <> []) as Hq by (by vm_compute).
  specialize (H Hq eq_refl eq_refl eq_refl eq_refl).
  vm_compute in H. discriminate H.
Qed.

(** C3, amended.  Let [v] be the world in which the analyze call of a
    segment is about to settle.  If [transcribeAudio] yielded [null]
    (which is what it yields when its request fails), no record is
    appended, whatever the analyze call returns.  If the transcribe
    response carried a non-empty text and the analyze call fails, the
    record with that text and a [null] analysis is appended at the end
    of the display list. *)
Theorem record_requires_transcription (w : World) (between1 between2 : list Label)
    (o1 o2 : settled AxiosResponse) :
  reachable w -> audioQueue w <> [] -> isProcessing w = false ->
  forallb foreign between1 = true -> forallb foreign between2 = true ->
  let v := run (QueueEffect :: between1 ++ TranscribeSettled 0 o1 :: between2) w in
  let v' := step (AnalyzeSettled 0 o2) v in
  transcribeAudio Rejected = Fulfilled Null /\
  (transcribeAudio o1 = Fulfilled Null ->
     transcriptions v' = transcriptions v /\ appended v' = appended v) /\
  (forall d c s,
     o1 = Fulfilled {| data := Some d |} ->
     d !! "transcription"%string = Some (Str (String c s)) ->
     o2 = Rejected ->
     transcriptions v'
       = transcriptions v ++ [{| text := Str (String c s); analysis := Null |}]).
Proof.
  intros Hr Hq Hb H1 H2 v v'.
  assert (processing w = []) as Hp
    by (apply idle_no_activation; [by apply reachable_inv | done]).
  destruct (audioQueue w) as [|currentAudio remainingQueue] eqn:Eq; [done|].
  destruct (transcribeAudio_settles o1) as [t Ht].
  destruct (analyzeAudio_settles o2) as [a Ha].
  subst v' v. rewrite at_analyze_run.
  destruct (at_delete_spec w currentAudio remainingQueue between1 between2 []
              o1 o2 t a Hp Eq Hb H1 H2 eq_refl Ht Ha) as (Dts & Dt & _).
  remember (step (AnalyzeSettled 0 o2) (at_analyze w between1 between2 o1)) as v'.
  remember (at_analyze w between1 between2 o1) as v.
  split; [done|]. split.
  - intros Ht'. rewrite Ht' in Ht. injection Ht as <-.
    simpl in Dts, Dt. rewrite app_nil_r in Dts. split; [done|].
    unfold appended. rewrite Dt, omap_app. simpl. by rewrite app_nil_r.
  - intros d c s -> Hd ->. rewrite transcribeAudio_response, Hd in Ht.
    injection Ht as <-. injection Ha as <-. done.
Qed.

Lemma record_requires_transcription_witness :
  transcriptions
    (run [QueueEffect; TranscribeSettled 0 (json "transcription" (Str "hello"));
          AnalyzeSettled 0 Rejected] one_segment)
  = transcriptions
      (run [QueueEffect; TranscribeSettled 0 (json "transcription" (Str "hello"))]
         one_segment)
    ++ [{| text := Str "hello"; analysis := Null |}].
Proof.
  refine (proj2 (proj2
    (record_requires_transcription one_segment [] []
       (json "transcription" (Str "hello")) Rejected _ _ _ _ _))
       {[ "transcription"%string := Str "hello" ]} _ _ _ _ _).
  - by eexists.
  - by vm_compute.
  - by vm_compute.
  - reflexivity.
  - reflexivity.
  - reflexivity.
  - by vm_compute.
  - reflexivity.
Defined.

(** ** C4: starting while a recording is active *)

(** What the button, the timer and [startRecording] do about a second
    recording.  The button calls [startRecording] exactly when
    [isRecording] is false, whatever the handle; the timer never calls
    it directly, only as the continuation of its awaited
    [stopRecording].  When permission is granted and the device delivers
    a recording, the new handle replaces the stored one, which is not
    stopped, and [isRecording] is set; in every other outcome the
    component state is unchanged. *)
Lemma startRecording_unguarded (w : World) :
  (isRecording w = true ->
     starting (step PressToggle w) = starting w /\
     isRecording (step PressToggle w) = false) /\
  (isRecording w = false -> step PressToggle w = startRecording w) /\
  startRecording w = with_starting S (emit EvRequestPermissions w) /\
  starting (step IntervalFire w) = starting w /\
  (forall i r o,
     stopping w !! i = Some {| stop_handle := r; stop_next := ThenStartRecording |} ->
     starting (step (StopSettled i o) w) = S (starting w)) /\
  (forall o, 0 < starting w ->
     let w' := step (StartSettled o) w in
     match startRecording_body o with
     | Fulfilled (Some h) =>
         recording w' = Some h /\ isRecording w' = true /\ device w' = h :: device w
     | _ => recording w' = recording w /\ isRecording w' = isRecording w /\
            device w' = device w
     end /\
     starting w' = pred (starting w) /\
     audioQueue w' = audioQueue w /\ transcriptions w' = transcriptions w) /\
  (forall status mode made,
     status <> "granted"%string ->
     startRecording_body
       {| perm_status := Fulfilled status; audio_mode := mode; created := made |}
     = Fulfilled None).
Proof.
  destruct w as [rec isRec trs q isP procs st stops dev tr]. simpl.
  split; [|split; [|split; [|split; [|split; [|split]]]]].
  - intros ->. unfold onPress; simpl. unfold stopRecording, then_; simpl.
    by destruct rec.
  - by intros ->.
  - done.
  - unfold onInterval; simpl. unfold stopRecording, then_; simpl.
    by destruct isRec, rec.
  - intros i r o ->. unfold after_stop, then_; simpl. by destruct o.
  - intros o Hst. destruct st; [lia|]. simpl.
    unfold after_start, then_. by destruct (startRecording_body o) as [[h|]|].
  - intros status mode made Hs. unfold startRecording_body; simpl.
    destruct (String.eqb_spec status "granted"); [done|]. done.
Qed.



(** ** C5: the two remote calls *)

(** C5, what the code does.  From the moment the effect starts on
    [currentAudio] until the transcribe call settles, the only request
    issued for the segment is the transcribe request: the activation
    waits at [await transcribeAudio(currentAudio)] and everything logged
    meanwhile comes from the recorder.  The analyze request is issued by
    the very step that receives the transcribe result, so the two calls
    are never pending together. *)
Theorem remote_calls_are_sequential (w : World) (currentAudio : Uri)
    (remainingQueue : list Uri) (between1 : list Label) (o1 : settled AxiosResponse) :
  reachable w ->
  audioQueue w = currentAudio :: remainingQueue ->
  isProcessing w = false ->
  forallb foreign between1 = true ->
  let v := run (QueueEffect :: between1) w in
  processing v = [AwaitTranscribe currentAudio remainingQueue] /\
  (exists es, trace v = trace w ++ EvPost transcribe_url currentAudio :: es /\
              forallb quiet es = true) /\
  trace (step (TranscribeSettled 0 o1) v) = trace v ++ [EvPost analyze_url currentAudio].
Proof.
  intros Hr Hq Hb H1 v.
  assert (processing w = []) as Hp
    by (apply idle_no_activation; [by apply reachable_inv | done]).
  destruct (transcribeAudio_settles o1) as [t Ht].
  destruct (at_transcribe_spec w currentAudio remainingQueue between1 Hp Hq Hb H1)
    as (Tp & Tb & Tes).
  subst v. rewrite run_cons. fold (at_transcribe w between1).
  split; [done|]. split; [done|].
  by destruct (stage_transcribe _ _ _ o1 t Tp Ht) as (_ & _ & Htr & _).
Qed.

Lemma remote_calls_are_sequential_witness :
  trace (step (TranscribeSettled 0 Rejected) (run [QueueEffect; PressClear] one_segment))
  = trace (run [QueueEffect; PressClear] one_segment) ++ [EvPost analyze_url segmentA].
Proof.
  refine (proj2 (proj2
    (remote_calls_are_sequential one_segment segmentA [] [PressClear] Rejected _ _ _ _))).
  - by eexists.
  - by vm_compute.
  - by vm_compute.
  - reflexivity.
Defined.

(** ** C6: stopRecording *)

(** C6, counterexample.  When [stopAndUnloadAsync] rejects, the [catch]
    block only logs: the queue is unchanged and the handle stays. *)
Lemma stop_rejected_keeps_handle :
  ~ stop_enqueues_and_clears recording_world Rejected.
Proof.
  intros H. destruct (H 1) as [_ Hrec]; [by vm_compute|].
  vm_compute in Hrec. discriminate Hrec.
Qed.

(** C6, amended.  Without a handle, [stopRecording] changes nothing.
    With a handle [r], the call asks the device to stop and unload [r]
    and waits.  When that succeeds, the URI of the recording is appended
    at the tail of the queue as it is then, and the handle is set to
    [null]; nothing else of the component state changes.  When it
    fails, the component state is left as it was: no segment is queued
    and the handle is kept. *)
Theorem stopRecording_spec (w : World) :
  (recording w = None -> stopRecording ThenNothing w = w) /\
  (forall r k, recording w = Some r ->
     stopRecording k w
     = with_stopping (fun ts => ts ++ [{| stop_handle := r; stop_next := k |}])
         (emit (EvStopAndUnload r) w)) /\
  (forall i r,
     stopping w !! i = Some {| stop_handle := r; stop_next := ThenNothing |} ->
     (forall fileUri,
        let w' := step (StopSettled i (Fulfilled fileUri)) w in
        audioQueue w' = audioQueue w ++ [fileUri] /\
        recording w' = None /\
        isRecording w' = isRecording w /\
        transcriptions w' = transcriptions w /\
        isProcessing w' = isProcessing w /\
        processing w' = processing w /\
        starting w' = starting w /\
        stopping w' = delete i (stopping w)) /\
     (let w' := step (StopSettled i Rejected) w in
      audioQueue w' = audioQueue w /\
      recording w' = recording w /\
      isRecording w' = isRecording w /\
      transcriptions w' = transcriptions w /\
      isProcessing w' = isProcessing w /\
      processing w' = processing w /\
      starting w' = starting w /\
      stopping w' = delete i (stopping w))).
Proof.
  split; [|split].
  - intros Hr. unfold stopRecording. by rewrite Hr.
  - intros r k Hr. unfold stopRecording. by rewrite Hr.
  - intros i r Hi. destruct w; simpl in *. rewrite Hi. done.
Qed.

Lemma stopRecording_spec_witness :
  audioQueue
    (step (StopSettled 0 (Fulfilled segmentA))
       (stopRecording ThenNothing recording_world))
  = audioQueue (stopRecording ThenNothing recording_world) ++ [segmentA]
  /\ stopRecording ThenNothing init = init.
Proof.
  split.
  - refine (proj1 (proj1 (proj2 (proj2
      (stopRecording_spec (stopRecording ThenNothing recording_world))) 0 1 _) _)).
    by vm_compute.
  - refine (proj1 (stopRecording_spec init) _). reflexivity.
Defined.

(** ** C7: cleanup whatever happens *)

(** C7.  Take any reachable world where the effect starts on the head
    [currentAudio] of the queue, any outcomes [o1], [o2] of the two
    remote calls, any outcome [o3] of the deletion (its failure
    included), and anything the rest of the component does in between.
    When the activation returns, the deletion of [currentAudio] has been
    requested in the course of it, the queue is the captured
    [remainingQueue], and the processor is idle.  Should an awaited call
    inside [try] reject, the [catch] path goes to the same [finally]:
    the deletion is requested and the activation waits for it. *)
Theorem cleanup_always (w : World) (currentAudio : Uri) (remainingQueue : list Uri)
    (between1 between2 between3 : list Label)
    (o1 o2 : settled AxiosResponse) (o3 : settled ()) :
  reachable w ->
  audioQueue w = currentAudio :: remainingQueue ->
  isProcessing w = false ->
  forallb foreign between1 = true ->
  forallb foreign between2 = true ->
  forallb foreign between3 = true ->
  let w' := run (QueueEffect :: between1 ++ TranscribeSettled 0 o1 :: between2
                   ++ AnalyzeSettled 0 o2 :: between3 ++ [DeleteSettled 0 o3]) w in
  ((exists before after,
      trace w' = trace w ++ before ++ EvDelete currentAudio :: after) /\
   audioQueue w' = remainingQueue /\
   isProcessing w' = false /\
   processing w' = []) /\
  (forall v i t,
     after_transcribe i currentAudio remainingQueue Rejected v
       = enter_finally i currentAudio remainingQueue v /\
     after_analyze i currentAudio remainingQueue t Rejected v
       = enter_finally i currentAudio remainingQueue v /\
     trace (enter_finally i currentAudio remainingQueue v)
       = trace v ++ [EvDelete currentAudio] /\
     processing (enter_finally i currentAudio remainingQueue v)
       = <[i := AwaitDelete currentAudio remainingQueue]> (processing v)).
Proof.
  intros Hr Hq Hb H1 H2 H3 w'.
  assert (processing w = []) as Hp
    by (apply idle_no_activation; [by apply reachable_inv | done]).
  destruct (transcribeAudio_settles o1) as [t Ht].
  destruct (analyzeAudio_settles o2) as [a Ha].
  subst w'. rewrite at_end_run.
  destruct (at_end_spec w currentAudio remainingQueue between1 between2 between3
              o1 o2 o3 t a Hp Hq Hb H1 H2 H3 Ht Ha) as (Ep & Eb & Eq & _).
  destruct (segment_trace w currentAudio remainingQueue between1 between2 between3
              o1 o2 o3 t a Hp Hq Hb H1 H2 H3 Ht Ha) as (es1 & es2 & es3 & _ & _ & _ & Et).
  split; [|done].
  split; [|done].
  exists (EvPost transcribe_url currentAudio :: es1
            ++ EvPost analyze_url currentAudio :: es2
            ++ (if truthy t
                then [EvAppend currentAudio {| text := t; analysis := a |}]
                else [])), es3.
  rewrite Et. simpl. repeat (rewrite <- app_assoc; simpl). done.
Qed.

Lemma cleanup_always_witness :
  audioQueue
    (run ([QueueEffect] ++ TranscribeSettled 0 Rejected :: [PressClear]
            ++ AnalyzeSettled 0 Rejected :: [] ++ [DeleteSettled 0 Rejected])
       one_segment) = [].
Proof.
  refine (proj1 (proj2 (proj1
    (cleanup_always one_segment segmentA [] [] [PressClear] []
       Rejected Rejected Rejected _ _ _ _ _ _)))).
  - by eexists.
  - by vm_compute.
  - by vm_compute.
  - reflexivity.
  - reflexivity.
  - reflexivity.
Defined.

(** ** C8: the display list follows the order of the queue *)

(** C8.  In every reachable world the display list is the record part
    of [shown w], the records appended since the last clear, each with
    the segment it came from; the segments of [shown w] form, in that
    order, a subsequence of the segments in the order they were put on
    the queue.  Hence, when every segment has its own URI: if the record
    at position [i] of the display list comes from [A], the one at
    position [j] from [B], and [A] was queued before [B], then
    [i < j]. *)
Theorem display_follows_queue_order (w : World) :
  reachable w ->
  transcriptions w = (shown w).*2 /\
  (shown w).*1 `sublist_of` enqueued w /\
  (NoDup (enqueued w) ->
   forall (i j i' j' : nat) (A B : Uri),
     (shown w).*1 !! i = Some A -> (shown w).*1 !! j = Some B ->
     enqueued w !! i' = Some A -> enqueued w !! j' = Some B ->
     i' < j' -> i < j).
Proof.
  intros Hr. destruct (reachable_inv w Hr) as [_ _ Ho [pre Hs]].
  assert (shown w = drop (length pre) (appended w)) as Hshown.
  { unfold shown. f_equal.
    apply (f_equal length) in Hs. rewrite length_fmap, length_app in Hs. lia. }
  assert ((shown w).*1 `sublist_of` enqueued w) as Hsub.
  { trans ((appended w).*1).
    - rewrite Hshown, fmap_drop. apply sublist_drop.
    - etrans; [|exact Ho]. by apply sublist_inserts_r. }
  split.
  { rewrite Hshown, fmap_drop, Hs. by rewrite drop_app_length. }
  split; [done|].
  intros Hnd i j i' j' A B Hi Hj Hi' Hj' Hlt.
  destruct (decide (i < j)) as [|Hge]; [done|]. exfalso.
  destruct (decide (i = j)) as [->|Hne].
  - rewrite Hi in Hj. injection Hj as ->.
    pose proof (NoDup_lookup _ _ _ _ Hnd Hi' Hj'). lia.
  - assert (j < i) as Hji by lia.
    destruct (sublist_lookup_order _ _ _ _ _ _ Hsub Hj Hi Hji)
      as (j'' & i'' & Hlt' & Hj'' & Hi'').
    pose proof (NoDup_lookup _ _ _ _ Hnd Hi' Hi'').
    pose proof (NoDup_lookup _ _ _ _ Hnd Hj' Hj''). lia.
Qed.

Lemma display_follows_queue_order_witness :
  transcriptions two_records = (shown two_records).*2 /\ 0 < 1.
Proof.
  assert (reachable two_records) as Hr by (by eexists).
  destruct (display_follows_queue_order two_records Hr) as (H1 & _ & H3).
  split; [exact H1|].
  refine (H3 _ 0 1 0 1 segmentA segmentB _ _ _ _ _).
  - apply (bool_decide_unpack _). by vm_compute.
  - by vm_compute.
  - by vm_compute.
  - by vm_compute.
  - by vm_compute.
  - lia.
Defined.

(** ** C9: clearing the display list *)

(** C9.  In every world the clear button replaces the display list by
    the empty list and leaves every other component of the world as it
    was: the queue, the busy flag, the recording handle and flag, and
    the pending activations.  An activation whose analyze call settles
    after the clear still appends its record, which is then the only
    one in the list. *)
Theorem clearRecordings_only_clears (w : World) :
  step PressClear w
  = {| recording := recording w; isRecording := isRecording w;
       transcriptions := [];
       audioQueue := audioQueue w; isProcessing := isProcessing w;
       processing := processing w; starting := starting w;
       stopping := stopping w; device := device w; trace := trace w |}
  /\
  forall i currentAudio remainingQueue t o,
    processing w !! i = Some (AwaitAnalyze currentAudio remainingQueue t) ->
    truthy t = true ->
    exists a,
      analyzeAudio o = Fulfilled a /\
      transcriptions (step (AnalyzeSettled i o) (step PressClear w))
      = [{| text := t; analysis := a |}].
Proof.
  split; [done|].
  intros i currentAudio remainingQueue t o Hi Ht.
  destruct (analyzeAudio_settles o) as [a Ha]. exists a. split; [done|].
  destruct w; simpl in *. rewrite Hi. unfold after_analyze. rewrite Ha.
  unfold then_. simpl. by rewrite Ht.
Qed.

Lemma clearRecordings_only_clears_witness :
  exists a,
    analyzeAudio Rejected = Fulfilled a /\
    transcriptions
      (step (AnalyzeSettled 0 Rejected)
         (step PressClear
            (run [QueueEffect; TranscribeSettled 0 (json "transcription" (Str "hello"))]
               one_segment)))
    = [{| text := Str "hello"; analysis := a |}].
Proof.
  refine (proj2 (clearRecordings_only_clears _) 0 segmentA [] _ Rejected _ _).
  - by vm_compute.
  - reflexivity.
Defined.

(** ** C10: an empty transcription is dropped *)

(** C10.  A successful transcribe response whose [transcription] field
    is the empty string makes [transcribeAudio] yield the empty string,
    which is falsy; the guard then skips the append, so nothing is added
    to the display list and no record is logged for the segment,
    whatever the analyze call returned. *)
Theorem empty_transcription_dropped :
  let o1 := json "transcription" (Str EmptyString) in
  transcribeAudio o1 = Fulfilled (Str EmptyString) /\
  truthy (Str EmptyString) = false /\
  forall (w : World) (between1 between2 : list Label) (o2 : settled AxiosResponse),
    reachable w -> audioQueue w <> [] -> isProcessing w = false ->
    forallb foreign between1 = true -> forallb foreign between2 = true ->
    let v := run (QueueEffect :: between1 ++ TranscribeSettled 0 o1 :: between2) w in
    let v' := step (AnalyzeSettled 0 o2) v in
    transcriptions v' = transcriptions v /\ appended v' = appended v.
Proof.
  intros o1. split; [done|]. split; [done|].
  intros w between1 between2 o2 Hr Hq Hb H1 H2 v v'.
  assert (processing w = []) as Hp
    by (apply idle_no_activation; [by apply reachable_inv | done]).
  destruct (audioQueue w) as [|currentAudio remainingQueue] eqn:Eq; [done|].
  destruct (analyzeAudio_settles o2) as [a Ha].
  subst v' v. rewrite at_analyze_run.
  destruct (at_delete_spec w currentAudio remainingQueue between1 between2 []
              o1 o2 (Str EmptyString) a Hp Eq Hb H1 H2 eq_refl eq_refl Ha)
    as (Dts & Dt & _).
  remember (step (AnalyzeSettled 0 o2) (at_analyze w between1 between2 o1)) as v'.
  remember (at_analyze w between1 between2 o1) as v.
  simpl in Dts, Dt. rewrite app_nil_r in Dts. split; [done|].
  unfold appended. rewrite Dt, omap_app. simpl. by rewrite app_nil_r.
Qed.

Lemma empty_transcription_dropped_witness :
  transcriptions
    (step (AnalyzeSettled 0 (json "analysis" (Str "calm")))
       (run [QueueEffect; TranscribeSettled 0 (json "transcription" (Str EmptyString))]
          one_segment))
  = transcriptions
      (run [QueueEffect; TranscribeSettled 0 (json "transcription" (Str EmptyString))]
         one_segment).
Proof.
  refine (proj1 (proj2 (proj2 empty_transcription_dropped)
    one_segment [] [] (json "analysis" (Str "calm")) _ _ _ _ _)).
  - by eexists.
  - by vm_compute.
  - by vm_compute.
  - reflexivity.
  - reflexivity.
Defined.

(** * Further properties of the pipeline *)

(** ** From the two responses to the record *)

Lemma record_for_spec o1 o2 t a :
  transcribeAudio o1 = Fulfilled t -> analyzeAudio o2 = Fulfilled a ->
  (if truthy t then [{| text := t; analysis := a |}] else []) = record_for o1 o2.
Proof.
  intros Ht Ha.
  assert (a = analysis_of o2) as ->.
  { destruct o2 as [[[d2|]]|]; [rewrite analyzeAudio_response in Ha|..];
      by injection Ha as <-. }
  destruct o1 as [[[d|]]|].
  - rewrite transcribeAudio_response in Ht. injection Ht as <-.
    unfold record_for.
    by destruct (d !! "transcription"%string) as [[| |[|c s]]|].
  - by injection Ht as <-.
  - by injection Ht as <-.
Qed.

(** X1.  What a segment adds to the display list, read off the two HTTP
    outcomes: one record when the transcribe response has an object
    body whose [transcription] field is a non-empty string, nothing in
    every other case (request failed, [null] body, field absent, [null]
    or empty).  The [analysis] of the record is the [analysis] field of
    the analyze response, [undefined] when the field is absent and
    [null] when the request failed or the body is [null]. *)
Theorem record_from_responses (w : World) (between1 between2 : list Label)
    (o1 o2 : settled AxiosResponse) :
  reachable w -> audioQueue w <> [] -> isProcessing w = false ->
  forallb foreign between1 = true -> forallb foreign between2 = true ->
  let v := run (QueueEffect :: between1 ++ TranscribeSettled 0 o1 :: between2) w in
  transcriptions (step (AnalyzeSettled 0 o2) v) = transcriptions v ++ record_for o1 o2.
Proof.
  intros Hr Hq Hb H1 H2 v.
  assert (processing w = []) as Hp
    by (apply idle_no_activation; [by apply reachable_inv | done]).
  destruct (audioQueue w) as [|currentAudio remainingQueue] eqn:Eq; [done|].
  destruct (transcribeAudio_settles o1) as [t Ht].
  destruct (analyzeAudio_settles o2) as [a Ha].
  subst v. rewrite at_analyze_run.
  destruct (at_delete_spec w currentAudio remainingQueue between1 between2 []
              o1 o2 t a Hp Eq Hb H1 H2 eq_refl Ht Ha) as (Dts & _).
  rewrite <- (record_for_spec o1 o2 t a Ht Ha). exact Dts.
Qed.

Lemma record_from_responses_witness :
  transcriptions
    (step (AnalyzeSettled 0 (json "other" (Str "calm")))
       (run (QueueEffect :: [] ++ TranscribeSettled 0 (json "transcription" (Str "hello"))
               :: [PressClear]) one_segment))
  = transcriptions
      (run (QueueEffect :: [] ++ TranscribeSettled 0 (json "transcription" (Str "hello"))
              :: [PressClear]) one_segment)
    ++ record_for (json "transcription" (Str "hello")) (json "other" (Str "calm")).
Proof.
  refine (record_from_responses one_segment [] [PressClear]
            (json "transcription" (Str "hello")) (json "other" (Str "calm")) _ _ _ _ _).
  - by eexists.
  - by vm_compute.
  - by vm_compute.
  - reflexivity.
  - reflexivity.
Defined.

(** ** startRecording, outcome by outcome *)

(** X2.  A pending [startRecording] stores a handle only when the
    permission status is ["granted"] and both [setAudioModeAsync] and
    [createAsync] succeed; then the handle is the created recording and
    [isRecording] is set.  In every other case (status not granted, or
    any of the three calls rejecting) the failure is silent: the five
    state cells, the device and the log are as before. *)
Theorem startRecording_outcome (w : World) (o : StartOutcome) :
  0 < starting w ->
  let w' := step (StartSettled o) w in
  (forall h,
     perm_status o = Fulfilled "granted"%string -> audio_mode o = Fulfilled () ->
     created o = Fulfilled h ->
     recording w' = Some h /\ isRecording w' = true /\ device w' = h :: device w) /\
  ((forall status, perm_status o = Fulfilled status -> status <> "granted"%string) \/
   audio_mode o = Rejected \/ created o = Rejected ->
   recording w' = recording w /\ isRecording w' = isRecording w /\
   device w' = device w) /\
  transcriptions w' = transcriptions w /\ audioQueue w' = audioQueue w /\
  isProcessing w' = isProcessing w /\ processing w' = processing w /\
  stopping w' = stopping w /\ trace w' = trace w /\
  starting w' = pred (starting w).
Proof.
  destruct w as [rec isRec trs q isP procs st stops dev tr]. simpl.
  intros Hst. destruct st as [|st]; [lia|]. simpl.
  destruct o as [p m c]. unfold after_start, startRecording_body, then_. simpl.
  split; [|split].
  - intros h -> -> ->. done.
  - intros H. destruct p as [status|]; simpl; [|done].
    destruct (String.eqb_spec status "granted") as [->|Hne]; [|done].
    destruct H as [H|[H|H]].
    + by destruct (H _ eq_refl).
    + by rewrite H.
    + rewrite H. by destruct m.
  - destruct p as [status|]; simpl; [|done].
    destruct (String.eqb status "granted"); [|done].
    destruct m; simpl; [|done]. by destruct c.
Qed.

Lemma startRecording_outcome_witness :
  recording
    (step (StartSettled {| perm_status := Fulfilled "denied"%string;
                           audio_mode := Fulfilled (); created := Fulfilled 7 |})
       (step PressToggle init))
  = recording (step PressToggle init).
Proof.
  refine (proj1 (proj1 (proj2 (startRecording_outcome (step PressToggle init)
    {| perm_status := Fulfilled "denied"%string;
       audio_mode := Fulfilled (); created := Fulfilled 7 |} _)) _)).
  - vm_compute. lia.
  - left. intros status [= <-]. discriminate.
Defined.

(** ** Requests, deletions and recordings *)

Lemma post_of_same url c : post_of url (EvPost url c) = Some c.
Proof. unfold post_of. by rewrite String.eqb_refl. Qed.

Lemma post_of_transcribe_analyze c : post_of transcribe_url (EvPost analyze_url c) = None.
Proof. by vm_compute. Qed.

Lemma post_of_analyze_transcribe c : post_of analyze_url (EvPost transcribe_url c) = None.
Proof. by vm_compute. Qed.

#[local] Arguments post_of : simpl never.

Ltac ledger_split :=
  split; unfold posted, deleted, enqueued; simpl;
  rewrite ?omap_app; simpl;
  rewrite ?post_of_same, ?post_of_transcribe_analyze, ?post_of_analyze_transcribe;
  simpl; rewrite ?app_nil_r, <- ?app_assoc; simpl.

Lemma init_ledger : Ledger init.
Proof. by split. Qed.

Ltac ledger_close :=
  rewrite ?app_nil_r in *; first [done | congruence].

Lemma step_ledger l w : Inv w -> Ledger w -> Ledger (step l w).
Proof.
  destruct w as [rec isRec trs q isP procs st stops dev tr].
  intros [H1 H2 _ _] [L1 L2]. unfold posted, deleted in *. simpl in *.
  destruct l; simpl; unfold_handlers; simpl.
  - destruct isRec, rec; ledger_split; ledger_close.
  - ledger_split; ledger_close.
  - destruct isRec, rec; ledger_split; ledger_close.
  - destruct q as [|currentAudio remainingQueue]; simpl; [ledger_split; ledger_close|].
    destruct isP; simpl; [ledger_split; ledger_close|].
    destruct procs; [|done]. simpl in *.
    ledger_split; ledger_close.
  - destruct st; [ledger_split; ledger_close|]. simpl.
    destruct (startRecording_body o) as [[h|]|]; ledger_split; ledger_close.
  - destruct (stops !! i) as [[h k]|]; [|ledger_split; ledger_close]. simpl.
    destruct o as [fileUri|], k; ledger_split; ledger_close.
  - destruct procs as [|t [|t' procs]]; simpl in *; [ledger_split; ledger_close| |lia].
    destruct i as [|i]; simpl; [|ledger_split; ledger_close].
    destruct t; try (ledger_split; ledger_close).
    destruct (transcribeAudio_settles o) as [t Ht]. rewrite Ht.
    ledger_split; ledger_close.
  - destruct procs as [|t [|t' procs]]; simpl in *; [ledger_split; ledger_close| |lia].
    destruct i as [|i]; simpl; [|ledger_split; ledger_close].
    destruct t; try (ledger_split; ledger_close).
    destruct (analyzeAudio_settles o) as [a Ha]. rewrite Ha.
    destruct transcriptionPromise as [| |[|c s]]; ledger_split; ledger_close.
  - destruct procs as [|t [|t' procs]]; simpl in *; [ledger_split; ledger_close| |lia].
    destruct i as [|i]; simpl; [|ledger_split; ledger_close].
    destruct t; ledger_split; ledger_close.
Qed.

Lemma reachable_ledger w : reachable w -> Ledger w.
Proof.
  intros Hr. cut (Inv w /\ Ledger w); [by intros [_ ?]|].
  revert w Hr. apply reachable_ind.
  - split; [apply init_inv | apply init_ledger].
  - intros l w [HI HL]. split; [by apply step_inv | by apply step_ledger].
Qed.

(** X3.  In every reachable world the segments posted to [/transcribe],
    those posted to [/analyze] and those handed to [deleteAsync] are the
    same sequence, up to the one segment in hand: it has been posted to
    [/transcribe] (and, once that has settled, to [/analyze]) and its
    deletion has not been requested yet.  When the processor is idle the
    three sequences coincide: nothing is uploaded without being cleaned
    up, nothing is deleted that was not uploaded to both endpoints. *)
Theorem requests_and_deletions (w : World) :
  reachable w ->
  posted transcribe_url w = deleted w ++ transcribing (processing w) /\
  posted analyze_url w = deleted w ++ analyzing (processing w) /\
  (isProcessing w = false ->
   posted transcribe_url w = deleted w /\ posted analyze_url w = deleted w).
Proof.
  intros Hr. destruct (reachable_ledger w Hr) as [L1 L2].
  split; [done|]. split; [done|].
  intros Hb. rewrite L1, L2.
  rewrite (idle_no_activation w (reachable_inv w Hr) Hb). simpl.
  by rewrite app_nil_r.
Qed.

Lemma requests_and_deletions_witness :
  posted transcribe_url two_records = deleted two_records /\
  posted analyze_url two_records = deleted two_records.
Proof.
  refine (proj2 (proj2 (requests_and_deletions two_records _)) _).
  - by eexists.
  - by vm_compute.
Defined.

Ltac uploads_split :=
  split; unfold posted, enqueued; simpl;
  rewrite ?omap_app; simpl;
  rewrite ?post_of_same, ?post_of_transcribe_analyze;
  simpl; rewrite ?app_nil_r, <- ?app_assoc; simpl.

Lemma init_uploads : Uploads init.
Proof. split; simpl; constructor. Qed.

Lemma step_uploads l w : Inv w -> Uploads w -> Uploads (step l w).
Proof.
  destruct w as [rec isRec trs q isP procs st stops dev tr].
  intros [H1 H2 _ _] [U1 U2]. unfold posted, enqueued in *. simpl in *.
  destruct l; simpl; unfold_handlers; simpl.
  - destruct isRec, rec; uploads_split; done.
  - uploads_split; done.
  - destruct isRec, rec; uploads_split; done.
  - destruct q as [|currentAudio remainingQueue]; simpl; [by uploads_split|].
    destruct isP; simpl; [by uploads_split|].
    destruct procs; [|done]. uploads_split; done.
  - destruct st; [by uploads_split|]. simpl.
    destruct (startRecording_body o) as [[h|]|]; uploads_split; done.
  - destruct (stops !! i) as [[h k]|]; [|by uploads_split]. simpl.
    destruct o as [fileUri|], k; uploads_split; try done.
    all: first
      [ by apply sublist_app
      | destruct procs as [|t procs];
        [ rewrite app_assoc; by apply sublist_app
        | by apply sublist_inserts_r ] ].
  - destruct procs as [|t [|t' procs]]; simpl in *; [by uploads_split| |lia].
    destruct i as [|i]; simpl; [|by uploads_split].
    destruct t; try by uploads_split.
    destruct (transcribeAudio_settles o) as [t Ht]. rewrite Ht.
    uploads_split; done.
  - destruct procs as [|t [|t' procs]]; simpl in *; [by uploads_split| |lia].
    destruct i as [|i]; simpl; [|by uploads_split].
    destruct t; try by uploads_split.
    destruct (analyzeAudio_settles o) as [a Ha]. rewrite Ha.
    destruct transcriptionPromise as [| |[|c s]]; uploads_split; done.
  - destruct procs as [|t [|t' procs]]; simpl in *; [by uploads_split| |lia].
    destruct i as [|i]; simpl; [|by uploads_split].
    destruct t; uploads_split; try done.
    etrans; [|exact U1]. by apply sublist_inserts_l.
Qed.

Lemma reachable_uploads w : reachable w -> Uploads w.
Proof.
  intros Hr. cut (Inv w /\ Uploads w); [by intros [_ ?]|].
  revert w Hr. apply reachable_ind.
  - split; [apply init_inv | apply init_uploads].
  - intros l w [HI HU]. split; [by apply step_inv | by apply step_uploads].
Qed.

(** X4.  In every reachable world the segments sent to the service so
    far form a subsequence of the segments recorded so far, in the
    order of recording, and so does the queue.  The processor never
    uploads something that was not recorded and never goes back to an
    earlier segment; when every recording has its own URI, no segment is
    uploaded twice and none sits in the queue twice. *)
Theorem uploads_follow_recordings (w : World) :
  reachable w ->
  posted transcribe_url w `sublist_of` enqueued w /\
  audioQueue w `sublist_of` enqueued w /\
  (NoDup (enqueued w) -> NoDup (posted transcribe_url w) /\ NoDup (audioQueue w)).
Proof.
  intros Hr. destruct (reachable_uploads w Hr) as [U1 U2].
  assert (posted transcribe_url w `sublist_of` enqueued w) as HP.
  { etrans; [|exact U1]. by apply sublist_inserts_r. }
  split; [done|]. split; [done|].
  intros Hnd. split; by eapply sublist_NoDup.
Qed.

Lemma uploads_follow_recordings_witness :
  NoDup (posted transcribe_url two_records) /\ NoDup (audioQueue two_records).
Proof.
  refine (proj2 (proj2 (uploads_follow_recordings two_records _)) _).
  - by eexists.
  - apply (bool_decide_unpack _). by vm_compute.
Defined.

(** ** The queue on the program's runs *)

Lemma program_run_snoc ls l w :
  program_run (ls ++ [l]) w = program_step l (program_run ls w).
Proof. unfold program_run. by rewrite foldl_app. Qed.

Lemma program_run_reachable ls : reachable (program_run ls init).
Proof.
  induction ls as [|l ls IH] using rev_ind; [apply reachable_init|].
  rewrite program_run_snoc. by apply reachable_step, reachable_step.
Qed.

(** After a handler: an idle processor has at most the one segment the
    handler queued. *)
Ltac queue_same Hq :=
  split; [let Hb := fresh in intros Hb; try rewrite (Hq Hb); simpl; lia | done].

Lemma handler_queue l w :
  Inv w ->
  (isProcessing w = false -> audioQueue w = []) ->
  Forall (fun t => captured t = []) (processing w) ->
  (isProcessing (step l w) = false -> length (audioQueue (step l w)) <= 1) /\
  Forall (fun t => captured t = []) (processing (step l w)).
Proof.
  destruct w as [rec isRec trs q isP procs st stops dev tr].
  intros [H1 H2 _ _] Hq Hc. simpl in *.
  destruct l; simpl; unfold_handlers; simpl.
  - destruct isRec, rec; simpl; queue_same Hq.
  - queue_same Hq.
  - destruct isRec, rec; simpl; queue_same Hq.
  - destruct q as [|currentAudio remainingQueue]; simpl; [queue_same Hq|].
    destruct isP; simpl; [queue_same Hq|]. by specialize (Hq eq_refl).
  - destruct st; simpl; [queue_same Hq|].
    destruct (startRecording_body o) as [[h|]|]; simpl; queue_same Hq.
  - destruct (stops !! i) as [[h k]|]; simpl; [|queue_same Hq].
    destruct o as [fileUri|], k; simpl; queue_same Hq.
  - destruct procs as [|t [|t' procs]]; simpl in *; [queue_same Hq| |lia].
    destruct i as [|i]; simpl; [|queue_same Hq].
    destruct t; simpl in *; try queue_same Hq.
    pose proof (proj1 (Forall_singleton _ _) Hc) as Hc'. simpl in Hc'. subst.
    destruct (transcribeAudio o); simpl; split; try done;
      by apply Forall_singleton.
  - destruct procs as [|t [|t' procs]]; simpl in *; [queue_same Hq| |lia].
    destruct i as [|i]; simpl; [|queue_same Hq].
    destruct t; simpl in *; try queue_same Hq.
    pose proof (proj1 (Forall_singleton _ _) Hc) as Hc'. simpl in Hc'. subst.
    destruct (analyzeAudio o); [destruct (truthy transcriptionPromise)|];
      simpl; split; try done; by apply Forall_singleton.
  - destruct procs as [|t [|t' procs]]; simpl in *; [queue_same Hq| |lia].
    destruct i as [|i]; simpl; [|queue_same Hq].
    destruct t; simpl in *; try queue_same Hq.
    pose proof (proj1 (Forall_singleton _ _) Hc) as Hc'. simpl in Hc'. subst.
    simpl. split; [lia|done].
Qed.

(** After the effect: the segment, if any, is in hand. *)
Lemma effect_queue w :
  Inv w ->
  (isProcessing w = false -> length (audioQueue w) <= 1) ->
  Forall (fun t => captured t = []) (processing w) ->
  (isProcessing (step QueueEffect w) = false -> audioQueue (step QueueEffect w) = []) /\
  Forall (fun t => captured t = []) (processing (step QueueEffect w)).
Proof.
  destruct w as [rec isRec trs q isP procs st stops dev tr].
  intros [H1 H2 _ _] Hq Hc. simpl in *. unfold_handlers. simpl.
  destruct q as [|currentAudio remainingQueue]; simpl; [done|].
  destruct isP; simpl; [done|].
  split; [done|]. specialize (Hq eq_refl). simpl in Hq.
  destruct remainingQueue; [|simpl in Hq; lia].
  apply Forall_app. split; [done|]. by apply Forall_singleton.
Qed.

Lemma program_queue ls :
  let w := program_run ls init in
  (isProcessing w = false -> audioQueue w = []) /\
  Forall (fun t => captured t = []) (processing w).
Proof.
  induction ls as [|l ls IH] using rev_ind; [done|].
  cbv zeta in *. rewrite program_run_snoc. unfold program_step.
  destruct IH as [Iq Ic].
  pose proof (reachable_inv _ (program_run_reachable ls)) as HI.
  destruct (handler_queue l _ HI Iq Ic) as [Hq Hc].
  apply effect_queue; [by apply step_inv | done | done].
Qed.

(** X5.  On the program's runs, where the effect runs after every
    handler, an idle processor always has an empty queue: a segment
    queued while the processor is idle is taken in hand by the effect of
    the same step.  So every activation starts on a one-element queue
    and captures an empty [remainingQueue], and when its deletion
    settles the queue is empty and the processor idle, whatever was
    queued in the meantime. *)
Theorem queue_empty_when_idle (ls : list Label) :
  let w := program_run ls init in
  (isProcessing w = false -> audioQueue w = []) /\
  (forall t, t ∈ processing w -> captured t = []) /\
  (forall (i : nat) (c : Uri) (o : settled ()),
     processing w !! i = Some (AwaitDelete c []) ->
     let w' := program_step (DeleteSettled i o) w in
     audioQueue w' = [] /\ isProcessing w' = false /\ processing w' = []).
Proof.
  cbv zeta. destruct (program_queue ls) as [Hq Hc].
  split; [done|]. split.
  { intros t Ht. by eapply Forall_forall in Hc. }
  intros i c o Hi.
  pose proof (reachable_inv _ (program_run_reachable ls)) as [H1 _ _ _].
  destruct (program_run ls init) as [rec isRec trs q isP procs st stops dev tr].
  simpl in *. unfold program_step. simpl. rewrite Hi.
  destruct procs as [|t [|t' procs]]; simpl in *; [done| |lia].
  destruct i as [|i]; [|done]. done.
Qed.

Lemma queue_empty_when_idle_witness :
  audioQueue (program_step (DeleteSettled 0 Rejected) (program_run busy_session init)) = [].
Proof.
  refine (proj1 (proj2 (proj2 (queue_empty_when_idle busy_session)) 0 segmentA Rejected _)).
  by vm_compute.
Defined.

(** ** The effect may run again *)

Lemma queueEffect_twice w :
  step QueueEffect (step QueueEffect w) = step QueueEffect w.
Proof.
  destruct w as [rec isRec trs q isP procs st stops dev tr]. simpl.
  unfold queueEffect, processAudioQueue. simpl.
  destruct q as [|currentAudio remainingQueue]; simpl; [done|].
  destruct isP; simpl; done.
Qed.

(** X6.  Running the effect on [audioQueue, isProcessing] any number of
    times in a row is the same as running it once, in every world: a
    re-render that runs the effect again never starts a second
    activation and never issues a second request. *)
Theorem queueEffect_idempotent (w : World) (n : nat) :
  run (replicate (S n) QueueEffect) w = step QueueEffect w.
Proof.
  induction n as [|n IH]; [done|].
  rewrite (replicate_S_end (S n)), run_snoc, IH. apply queueEffect_twice.
Qed.

(** ** The display list between two clears *)

Lemma step_transcriptions_prefix l w :
  l <> PressClear -> transcriptions w `prefix_of` transcriptions (step l w).
Proof.
  intros Hl.
  destruct w as [rec isRec trs q isP procs st stops dev tr].
  destruct l; try done; simpl; unfold_handlers; simpl.
  - by destruct isRec, rec.
  - by destruct isRec, rec.
  - destruct q as [|currentAudio remainingQueue]; simpl; [done|].
    by destruct isP.
  - destruct st; [done|]. simpl.
    by destruct (startRecording_body o) as [[h|]|].
  - destruct (stops !! i) as [[h k]|]; [|done]. simpl.
    by destruct o as [fileUri|], k.
  - destruct (procs !! i) as [[]|]; try done.
    by destruct (transcribeAudio o).
  - destruct (procs !! i) as [[]|]; try done.
    destruct (analyzeAudio o); [|done].
    destruct (truthy transcriptionPromise); simpl; [|done].
    by apply prefix_app_r.
  - by destruct (procs !! i) as [[]|].
Qed.

(** X7.  As long as the clear button is not tapped, the display list
    only grows at its end: whatever else happens (taps on the record
    button, timer ticks, settlements in any order and with any outcome),
    the list before is a prefix of the list after.  No step other than
    the clear removes, replaces or reorders a record. *)
Theorem display_list_append_only (ls : list Label) (w : World) :
  Forall (fun l => l <> PressClear) ls ->
  transcriptions w `prefix_of` transcriptions (run ls w).
Proof.
  intros Hls. revert w. induction Hls as [|l ls Hl Hls IH]; intros w; [done|].
  rewrite run_cons. etrans; [by apply step_transcriptions_prefix|]. apply IH.
Qed.

Lemma display_list_append_only_witness :
  transcriptions one_segment
  `prefix_of`
  transcriptions
    (run [QueueEffect; PressToggle;
          TranscribeSettled 0 (json "transcription" (Str "hello"));
          AnalyzeSettled 0 Rejected; DeleteSettled 0 Rejected] one_segment).
Proof.
  refine (display_list_append_only _ one_segment _).
  repeat constructor; discriminate.
Defined.

(** ** A stop tap during a rollover *)

(** X8.  When the timer has stopped a recording and its
    [startRecording] is still pending, a tap on the button (which shows
    stop) does not end the session.  The tap clears [isRecording] and
    finds no handle, so it stops nothing and queues nothing; when the
    pending start is granted it stores the new handle and sets
    [isRecording] again, so the recorder is running although the user
    asked it to stop. *)
Theorem stop_tap_while_restarting (w : World) (h : Handle) :
  restarting w ->
  let tapped := step PressToggle w in
  let w' := step (StartSettled (granted h)) tapped in
  isRecording tapped = false /\
  stopping tapped = stopping w /\ starting tapped = starting w /\
  trace tapped = trace w /\ audioQueue tapped = audioQueue w /\
  recording w' = Some h /\ isRecording w' = true /\
  device w' = h :: device w /\ audioQueue w' = audioQueue w.
Proof.
  destruct w as [rec isRec trs q isP procs st stops dev tr].
  intros (Hrec & HisRec & Hst); simpl in *. subst.
  destruct st as [|st]; [lia|]. done.
Qed.

Lemma stop_tap_while_restarting_witness :
  isRecording (step (StartSettled (granted 2)) (step PressToggle rollover_pending)) = true.
Proof.
  refine (proj1 (proj2 (proj2 (proj2 (proj2 (proj2 (proj2
    (stop_tap_while_restarting rollover_pending 2 _)))))))).
  split; [by vm_compute|]. split; [by vm_compute|]. vm_compute. lia.
Defined.

(** ** The recorder and the processor do not touch each other *)

Lemma quiet_omap es :
  forallb quiet es = true ->
  (forall url, omap (post_of url) es = []) /\
  omap delete_of es = [] /\ omap append_of es = [].
Proof.
  induction es as [|e es IH]; [done|]. simpl.
  intros [He Hes]%andb_true_iff. destruct (IH Hes) as (I1 & I2 & I3).
  destruct e; try done; simpl; auto.
Qed.

(** X9.  While a segment is being processed, nothing the user or the
    recorder does (taps on either button, timer ticks, settlements of
    start and stop, further runs of the effect) cancels, restarts or
    duplicates the upload: the activation and the busy flag are
    untouched, and no request, deletion or record is issued by those
    steps. *)
Theorem upload_survives_recorder (w : World) (ls : list Label) :
  isProcessing w = true -> forallb foreign ls = true ->
  let w' := run ls w in
  processing w' = processing w /\ isProcessing w' = true /\
  posted transcribe_url w' = posted transcribe_url w /\
  posted analyze_url w' = posted analyze_url w /\
  deleted w' = deleted w /\ appended w' = appended w.
Proof.
  intros Hb Hls w'.
  destruct (foreign_run_frame ls w Hls Hb) as [Fp Fb (es & Fe & Fq)].
  destruct (quiet_omap es Fq) as (Q1 & Q2 & Q3).
  subst w'. unfold posted, deleted, appended.
  rewrite Fp, Fb, Fe, !omap_app, !Q1, Q2, Q3, !app_nil_r. done.
Qed.

Lemma upload_survives_recorder_witness :
  processing
    (run [PressToggle; StartSettled (granted 2); PressClear; QueueEffect; PressToggle]
       (step QueueEffect one_segment))
  = processing (step QueueEffect one_segment).
Proof.
  refine (proj1 (upload_survives_recorder (step QueueEffect one_segment) _ _ _)).
  - by vm_compute.
  - reflexivity.
Defined.

Lemma step_recorder_frame l w :
  uploader l = true ->
  let w' := step l w in
  recording w' = recording w /\ isRecording w' = isRecording w /\
  starting w' = starting w /\ stopping w' = stopping w /\
  device w' = device w /\ enqueued w' = enqueued w.
Proof.
  destruct w as [rec isRec trs q isP procs st stops dev tr].
  destruct l; try done; intros _; unfold enqueued; simpl; unfold_handlers; simpl.
  - destruct q as [|currentAudio remainingQueue]; simpl; [done|].
    destruct isP; simpl; [done|]. rewrite omap_app. simpl. by rewrite app_nil_r.
  - destruct (procs !! i) as [[]|]; try done.
    destruct (transcribeAudio o); simpl; rewrite omap_app; simpl;
      by rewrite app_nil_r.
  - destruct (procs !! i) as [[]|]; try done.
    destruct (analyzeAudio o); [destruct (truthy transcriptionPromise)|]; simpl;
      rewrite ?omap_app; simpl; by rewrite ?app_nil_r.
  - by destruct (procs !! i) as [[]|].
Qed.

(** X10.  The upload queue processor never touches the recorder: the
    effect and the settlements of the two requests and of the deletion,
    in any number, order and outcome, leave the recording handle,
    [isRecording], the pending start and stop calls, the device and the
    history of recorded segments as they are. *)
Theorem recorder_survives_uploads (w : World) (ls : list Label) :
  forallb uploader ls = true ->
  let w' := run ls w in
  recording w' = recording w /\ isRecording w' = isRecording w /\
  starting w' = starting w /\ stopping w' = stopping w /\
  device w' = device w /\ enqueued w' = enqueued w.
Proof.
  revert w. induction ls as [|l ls IH]; intros w Hls; [done|].
  simpl in Hls. apply andb_true_iff in Hls as [Hl Hls].
  cbv zeta. rewrite run_cons.
  destruct (step_recorder_frame l w Hl) as (S1 & S2 & S3 & S4 & S5 & S6).
  destruct (IH (step l w) Hls) as (R1 & R2 & R3 & R4 & R5 & R6).
  rewrite R1, R2, R3, R4, R5, R6. done.
Qed.

Lemma recorder_survives_uploads_witness :
  recording
    (run [QueueEffect; TranscribeSettled 0 Rejected; AnalyzeSettled 0 Rejected;
          DeleteSettled 0 Rejected] recording_world)
  = recording recording_world.
Proof.
  refine (proj1 (recorder_survives_uploads recording_world _ _)).
  reflexivity.
Defined.

(** ** A recording session, rollover after rollover *)

Lemma filter_other_handle (h : Handle) :
  filter (fun x : Handle => x <> h) [h] = [].
Proof. rewrite filter_cons_False by (intros ?; done). done. Qed.

Lemma rollover_spec w h q u h' :
  running h q w ->
  let w' := run (rollover (u, h')) w in
  running h' (q ++ [u]) w' /\
  enqueued w' = enqueued w ++ [u] /\
  transcriptions w' = transcriptions w /\ isProcessing w' = isProcessing w /\
  processing w' = processing w.
Proof.
  destruct w as [rec isRec trs q0 isP procs st stops dev tr].
  intros (Hrec & HisRec & Hst & Hstops & Hdev & Hq); simpl in *. subst.
  unfold running, enqueued, rollover, run. cbn -[filter].
  unfold after_stop, then_. cbn -[filter].
  rewrite filter_other_handle. cbn.
  rewrite !omap_app. simpl. rewrite !app_nil_r. done.
Qed.

Lemma last_cons_default {A} (l : list A) (x d : A) :
  List.last (x :: l) d = List.last l x.
Proof.
  revert x d. induction l as [|y l IH]; intros x d; [done|].
  change (List.last (x :: y :: l) d) with (List.last (y :: l) d).
  by rewrite !IH.
Qed.

Lemma rollovers_spec segs : forall w h q,
  running h q w ->
  let w' := run (flat_map rollover segs) w in
  running (List.last segs.*2 h) (q ++ segs.*1) w' /\
  enqueued w' = enqueued w ++ segs.*1 /\
  transcriptions w' = transcriptions w /\ isProcessing w' = isProcessing w /\
  processing w' = processing w.
Proof.
  induction segs as [|[u h'] segs IH]; intros w h q Hw; cbv zeta.
  - simpl. by rewrite !app_nil_r.
  - change (flat_map rollover ((u, h') :: segs))
      with (rollover (u, h') ++ flat_map rollover segs).
    rewrite run_app.
    destruct (rollover_spec w h q u h' Hw) as (R1 & R2 & R3 & R4 & R5).
    destruct (IH _ _ _ R1) as (I1 & I2 & I3 & I4 & I5).
    rewrite I2, I3, I4, I5, R2, R3, R4, R5.
    rewrite <- app_assoc in I1. simpl in I1.
    split; [|by rewrite <- app_assoc].
    change (((u, h') :: segs).*2) with (h' :: segs.*2).
    by rewrite last_cons_default.
Qed.

Lemma start_spec w h0 :
  at_rest w ->
  let w' := run [PressToggle; StartSettled (granted h0)] w in
  running h0 (audioQueue w) w' /\
  enqueued w' = enqueued w /\
  transcriptions w' = transcriptions w /\ isProcessing w' = isProcessing w /\
  processing w' = processing w.
Proof.
  destruct w as [rec isRec trs q isP procs st stops dev tr].
  intros (Hrec & HisRec & Hst & Hstops & Hdev); simpl in *. subst.
  unfold running, enqueued. simpl.
  rewrite omap_app. simpl. by rewrite app_nil_r.
Qed.

Lemma stop_spec w h q u :
  running h q w ->
  let w' := run [PressToggle; StopSettled 0 (Fulfilled u)] w in
  at_rest w' /\
  audioQueue w' = q ++ [u] /\
  enqueued w' = enqueued w ++ [u] /\
  transcriptions w' = transcriptions w /\ isProcessing w' = isProcessing w /\
  processing w' = processing w.
Proof.
  destruct w as [rec isRec trs q0 isP procs st stops dev tr].
  intros (Hrec & HisRec & Hst & Hstops & Hdev & Hq); simpl in *. subst.
  unfold at_rest, enqueued, run. cbn -[filter].
  unfold after_stop, then_. cbn -[filter].
  rewrite filter_other_handle. cbn.
  rewrite !omap_app. simpl. rewrite !app_nil_r. done.
Qed.

(** The recorder's events of a session, run on their own. *)
Lemma session_recorder w h0 segs last :
  at_rest w ->
  let w' := run (session h0 segs last) w in
  at_rest w' /\ enqueued w' = enqueued w ++ segs.*1 ++ [last].
Proof.
  intros Hw. cbv zeta. unfold session. rewrite !run_app.
  destruct (start_spec w h0 Hw) as (R1 & E1 & _).
  destruct (rollovers_spec segs _ _ _ R1) as (R2 & E2 & _).
  destruct (stop_spec _ _ _ last R2) as (R3 & _ & E3 & _).
  split; [done|]. rewrite E3, E2, E1. by rewrite <- !app_assoc.
Qed.

(** An event that is not the recorder's leaves the recorder alone. *)
Lemma step_recorder_other l w :
  recorder_label l = false -> recorder_state (step l w) = recorder_state w.
Proof.
  destruct l; try done; intros _; unfold recorder_state.
  - by destruct (step_recorder_frame QueueEffect w eq_refl)
      as (-> & -> & -> & -> & -> & ->).
  - by destruct (step_recorder_frame (TranscribeSettled i o) w eq_refl)
      as (-> & -> & -> & -> & -> & ->).
  - by destruct (step_recorder_frame (AnalyzeSettled i o) w eq_refl)
      as (-> & -> & -> & -> & -> & ->).
  - by destruct (step_recorder_frame (DeleteSettled i o) w eq_refl)
      as (-> & -> & -> & -> & -> & ->).
Qed.

(** What an event of the recorder does to the recorder depends on
    nothing else. *)
Lemma step_recorder_congr l w1 w2 :
  recorder_label l = true ->
  recorder_state w1 = recorder_state w2 ->
  recorder_state (step l w1) = recorder_state (step l w2).
Proof.
  destruct w1 as [rec1 isRec1 trs1 q1 isP1 procs1 st1 stops1 dev1 tr1].
  destruct w2 as [rec2 isRec2 trs2 q2 isP2 procs2 st2 stops2 dev2 tr2].
  unfold recorder_state, enqueued. simpl.
  intros Hl [= -> -> -> -> -> He].
  destruct l; try done; simpl; unfold_handlers; simpl.
  - destruct isRec2, rec2; simpl; rewrite ?omap_app, ?He; done.
  - destruct isRec2, rec2; simpl; rewrite ?omap_app, ?He; done.
  - destruct st2; simpl; [by rewrite He|].
    destruct (startRecording_body o) as [[h|]|]; simpl; by rewrite He.
  - destruct (stops2 !! i) as [[h k]|]; simpl; [|by rewrite He].
    destruct o as [fileUri|], k; simpl; rewrite ?omap_app, ?He; done.
Qed.

Lemma run_recorder_events ls : forall w1 w2,
  recorder_state w1 = recorder_state w2 ->
  recorder_state (run ls w1) = recorder_state (run (List.filter recorder_label ls) w2).
Proof.
  induction ls as [|l ls IH]; intros w1 w2 Hw; [done|].
  rewrite run_cons. simpl. destruct (recorder_label l) eqn:Hl.
  - rewrite run_cons. apply IH. by apply step_recorder_congr.
  - apply IH. by rewrite step_recorder_other.
Qed.

(** X11.  A session that goes well, from a recorder at rest: the user
    starts, the timer rolls over any number of times, the user stops,
    while the processor does whatever it does in between (the effect
    after every handler, settlements of uploads, clears).  Every
    rollover and the final stop record exactly one segment, in that
    order, so [n] rollovers give [n + 1] recorded segments; afterwards
    the recorder is at rest again, with no handle and nothing held by
    the device. *)
Theorem session_segments (w : World) (h0 : Handle) (segs : list (Uri * Handle))
    (last : Uri) (ls : list Label) :
  at_rest w ->
  List.filter recorder_label ls = session h0 segs last ->
  let w' := run ls w in
  at_rest w' /\ enqueued w' = enqueued w ++ segs.*1 ++ [last].
Proof.
  intros Hw Hls. cbv zeta.
  pose proof (run_recorder_events ls w w eq_refl) as Hrs.
  rewrite Hls in Hrs.
  destruct (session_recorder w h0 segs last Hw) as [Hrest Henq].
  unfold recorder_state in Hrs. injection Hrs as H1 H2 H3 H4 H5 H6.
  unfold at_rest in *. rewrite H1, H2, H3, H4, H5, H6. done.
Qed.

Lemma session_segments_witness :
  at_rest (run session_with_uploads init) /\
  enqueued (run session_with_uploads init)
  = enqueued init ++ [(segmentA, 2)].*1 ++ [segmentB].
Proof.
  refine (session_segments init 1 [(segmentA, 2)] segmentB session_with_uploads _ _).
  - by vm_compute.
  - by vm_compute.
Defined.

(** ** Records and processed segments *)

Lemma step_records l w :
  sublist (appended w).*1 (deleted w) ->
  sublist (appended (step l w)).*1 (deleted (step l w)).
Proof.
  destruct w as [rec isRec trs q isP procs st stops dev tr].
  unfold appended, deleted. simpl. intros HA.
  destruct l; simpl; unfold_handlers; simpl.
  - destruct isRec, rec; simpl; rewrite ?omap_app; simpl; by rewrite ?app_nil_r.
  - done.
  - destruct isRec, rec; simpl; rewrite ?omap_app; simpl; by rewrite ?app_nil_r.
  - destruct q as [|currentAudio remainingQueue]; simpl; [done|].
    destruct isP; simpl; [done|]. rewrite !omap_app. simpl. by rewrite !app_nil_r.
  - destruct st; [done|]. simpl.
    by destruct (startRecording_body o) as [[h|]|].
  - destruct (stops !! i) as [[h k]|]; [|done]. simpl.
    destruct o as [fileUri|], k; simpl; rewrite ?omap_app; simpl;
      by rewrite ?app_nil_r.
  - destruct (procs !! i) as [[]|]; try done.
    destruct (transcribeAudio o); simpl; rewrite !omap_app; simpl;
      rewrite ?app_nil_r; [done|]. by apply sublist_inserts_r.
  - destruct (procs !! i) as [[]|]; try done.
    destruct (analyzeAudio o); [destruct (truthy transcriptionPromise)|]; simpl;
      rewrite !omap_app; simpl; rewrite ?omap_app; simpl; rewrite ?app_nil_r.
    + rewrite fmap_app. simpl. by apply sublist_app.
    + by apply sublist_inserts_r.
    + by apply sublist_inserts_r.
  - by destruct (procs !! i) as [[]|].
Qed.

(** X12.  In every reachable world the segments behind the records
    appended so far form a subsequence of the segments whose deletion
    has been requested, hence of those posted to both endpoints: a
    record is only ever made for a segment that went through the whole
    activation, and a segment gives at most one record. *)
Theorem records_come_from_processed_segments (w : World) :
  reachable w ->
  (appended w).*1 `sublist_of` deleted w /\
  (appended w).*1 `sublist_of` posted analyze_url w /\
  (appended w).*1 `sublist_of` posted transcribe_url w /\
  length (appended w) <= length (deleted w).
Proof.
  intros Hr.
  assert ((appended w).*1 `sublist_of` deleted w) as HA.
  { revert w Hr. apply reachable_ind; [constructor|]. intros l w. apply step_records. }
  destruct (reachable_ledger w Hr) as [L1 L2].
  split; [done|]. split; [|split].
  - rewrite L2. by apply sublist_inserts_r.
  - rewrite L1. by apply sublist_inserts_r.
  - apply sublist_length in HA. by rewrite length_fmap in HA.
Qed.

Lemma records_come_from_processed_segments_witness :
  (appended two_records).*1 `sublist_of` deleted two_records.
Proof.
  refine (proj1 (records_come_from_processed_segments two_records _)).
  by eexists.
Defined.
